(** * movie_markov: a first-order Markov chain over movie titles

    Shallow embedding of [movies_markov.py]: the weighted sampler
    ([weighted_choice]), the random walk ([markov_randwalk]), the chain
    construction ([calculate_chain]) and the generator of unique titles
    ([titles]).

    Modelling choices, all read off the source:
    - Python [str] is [string] (the code only compares strings, splits
      them at the ASCII space and joins them); Python [int] weights are
      [Z].
    - The chain [mark] is a [dict] from symbol to edge table that the code
      only reads by key and extends by key: a [gmap string table].
    - An edge table is a [dict] whose [items()] are scanned in order by
      [weighted_choice]; Python dicts keep insertion order, so a table is
      an association list in insertion order ([table_set] updates in
      place or appends).
    - [random.uniform] reads and advances the global generator; the
      generator state is an explicit value of an arbitrary type [G] and
      the draw is a rational (every finite float is one).
    - [while True] loops take a fuel argument; [None] means the fuel ran
      out, [Some] carries what the Python code returns or raises.
    - The set [uniq] of [titles] is a [gset string]. *)

From Stdlib Require Import ZArith QArith Lia Ascii String.
From stdpp Require Import gmap strings list fin_maps.

Local Open Scope Z_scope.
Local Open Scope string_scope.

(** ** Python values *)

(** The two exceptions the modelled code can raise: [KeyError] from a
    dict subscript (it carries the missing key) and the [AssertionError]
    of [assert False]. *)
Inductive exn : Type :=
| KeyError (key : string)
| AssertionError.

Inductive result (A : Type) : Type :=
| Ok (a : A)
| Raise (e : exn).
Arguments Ok {A} a.
Arguments Raise {A} e.

(** The two sentinel symbols, string literals in the source. *)
Definition START : string := "_start_".
Definition END : string := "_end_".

(** *** Edge tables: insertion-ordered dicts from symbol to weight *)

Definition table : Type := list (string * Z).

(** [d.get(k)] / [k in d] *)
Fixpoint table_get (k : string) (t : table) : option Z :=
  match t with
  | [] => None
  | (k', v) :: rest => if String.eqb k k' then Some v else table_get k rest
  end.

(** [d[k] = v]: an existing key keeps its position, a new key goes last. *)
Fixpoint table_set (k : string) (v : Z) (t : table) : table :=
  match t with
  | [] => [(k, v)]
  | (k', v') :: rest =>
      if String.eqb k k' then (k', v) :: rest else (k', v') :: table_set k v rest
  end.

(** [sum(weight for choice, weight in choices)]: Python's [sum] starts from
    0 and adds from the left. *)
Definition sum_weights (choices : table) : Z :=
  fold_left (fun acc cw => acc + snd cw) choices 0.

(** *** [str.split(' ')] and [' '.join] *)

(** Splitting on the single space: consecutive spaces and a leading or
    trailing space give empty tokens, and the empty string gives one empty
    token. *)
Fixpoint split (s : string) : list string :=
  match s with
  | EmptyString => [EmptyString]
  | String c rest =>
      if Ascii.eqb c " "%char then EmptyString :: split rest
      else match split rest with
           | [] => [String c EmptyString]
           | w :: ws => String c w :: ws
           end
  end.

Definition join (title : list string) : string := String.concat " " title.

(** ** Chain construction: [calculate_chain] *)

(** The variable [previous] of the source is a reference to one of the
    tables stored in [mark] (lines 123 and 142), and a table stored in
    [mark] is never rebound (line 137 only adds a missing key).  The
    reference is therefore represented by the key it was read from, and a
    mutation [previous[w] = n] is the update of [mark] at that key.  A
    reference cannot dangle in Python; the corresponding case of the model
    ([mark !! previous = None]) raises and is unreachable: [previous] is
    always a key ([words_loop_wf]), and the only exception that leaves the
    loops of the builder is the [KeyError] of line 142
    ([titles_loop_raise]). *)

(** Lines 131-140: note that [word] was seen after the symbol whose table
    [tbl] is [mark[previous]]. *)
Definition note_word (mark : gmap string table) (previous : string)
    (tbl : table) (word : string) : gmap string table :=
  match table_get word tbl with
  | None =>
      let mark1 := <[previous := table_set word 1 tbl]> mark in
      match mark1 !! word with
      | None => <[word := []]> mark1
      | Some _ => mark1
      end
  | Some n => <[previous := table_set word (n + 1) tbl]> mark
  end.

(** Lines 125-142, the loop [for word in words]. *)
Fixpoint words_loop (words : list string) (mark : gmap string table)
    (previous : string) : result (gmap string table * string) :=
  match words with
  | [] => Ok (mark, previous)
  | word :: rest =>
      if String.eqb word EmptyString then Ok (mark, previous) (* break *)
      else
        match mark !! previous with
        | None => Raise (KeyError previous)
        | Some tbl =>
            let mark' := note_word mark previous tbl word in
            match mark' !! word with (* line 142 *)
            | None => Raise (KeyError word)
            | Some _ => words_loop rest mark' word
            end
        end
  end.

(** Lines 145-148: count the end of the title in [previous]. *)
Definition end_title (mark : gmap string table) (previous : string)
    : result (gmap string table) :=
  match mark !! previous with
  | None => Raise (KeyError previous)
  | Some tbl =>
      match table_get END tbl with
      | None => Ok (<[previous := table_set END 1 tbl]> mark)
      | Some n => Ok (<[previous := table_set END (n + 1) tbl]> mark)
      end
  end.

(** Lines 114-148, the loop [for title in titles] over the items that
    [pyprind.prog_bar] hands on. *)
Fixpoint titles_loop (titles : list (option string)) (mark : gmap string table)
    : result (gmap string table) :=
  match titles with
  | [] => Ok mark
  | None :: _ => Ok mark (* break *)
  | Some title :: rest =>
      match mark !! START with
      | None => Raise (KeyError START)
      | Some _ =>
          match words_loop (split title) mark START with
          | Raise e => Raise e
          | Ok (mark1, previous) =>
              match end_title mark1 previous with
              | Raise e => Raise e
              | Ok mark2 => titles_loop rest mark2
              end
          end
      end
  end.

(** Line 114: [pyprind.prog_bar(titles, title = ...)].  Called without
    [iterations] it takes [len(titles)] and asserts that it is not 0 when
    the loop asks for the first item; it then hands the items on
    unchanged (what it prints is left out). *)
Definition prog_bar (titles : list (option string))
    : result (list (option string)) :=
  match titles with
  | [] => Raise AssertionError
  | _ :: _ => Ok titles
  end.

Definition calculate_chain (titles : list (option string))
    : result (gmap string table) :=
  let mark : gmap string table := <[START := []]> ∅ in
  match prog_bar titles with
  | Raise e => Raise e
  | Ok items => titles_loop items mark
  end.

(** ** Sampling and walking *)

Section Random.
(** The state of the random generator and [random.uniform(a, b)], taken
    where the call returns a number: the [OverflowError] of a total beyond
    the range of the floats is not modelled. *)
Context {G : Type}.
Variable uniform : Z -> Z -> G -> Q * G.

(** Lines 69-74: the scan with its running sum [upto]; falling out of
    the loop reaches [assert False]. *)
Fixpoint weighted_choice_loop (choices : table) (upto : Z) (randval : Q)
    : result string :=
  match choices with
  | [] => Raise AssertionError
  | (choice, weight) :: rest =>
      if Qle_bool randval (inject_Z (upto + weight)) then Ok choice
      else weighted_choice_loop rest (upto + weight) randval
  end.

Definition weighted_choice (choices : table) (g : G) : result string * G :=
  let total := sum_weights choices in
  let (randval, g') := uniform 0 total g in
  (weighted_choice_loop choices 0 randval, g').

(** What [random.uniform(0, b)] promises for [0 <= b]. *)
Definition uniform_in_range : Prop :=
  forall (b : Z) (g : G),
    0 <= b -> (0 <= fst (uniform 0 b g) <= inject_Z b)%Q.

(** Lines 89-102: the loop of the walk, and the join at its exit. *)
Fixpoint randwalk_loop (fuel : nat) (mark : gmap string table)
    (previous : table) (title : list string) (g : G)
    : option (result string) * G :=
  match fuel with
  | O => (None, g)
  | S fuel' =>
      match weighted_choice previous g with
      | (Raise e, g') => (Some (Raise e), g')
      | (Ok newword, g') =>
          if String.eqb newword END then (Some (Ok (join title)), g')
          else
            match mark !! newword with
            | None => (Some (Raise (KeyError newword)), g')
            | Some tbl => randwalk_loop fuel' mark tbl (title ++ [newword]) g'
            end
      end
  end.

Definition markov_randwalk (fuel : nat) (mark : gmap string table)
    (start : string) (g : G) : option (result string) * G :=
  match mark !! start with
  | None => (Some (Raise (KeyError start)), g)
  | Some previous =>
      let title := if String.eqb start START then [] else [start] in
      randwalk_loop fuel mark previous title g
  end.

(** *** The generator [titles] *)

(** Why a run of the generator stopped handing out titles. *)
Inductive stop : Type :=
| Taken             (* the consumer has its [n] titles *)
| Raised (e : exn)  (* the walk raised, the generator dies *)
| NoFuel.

(** [itertools.islice(titles(mark, seed), n)] as the list of the titles
    yielded, in order.  [rounds] bounds the iterations of the generator's
    [while True], [fuel] those of each walk. *)
Fixpoint titles_from (rounds fuel : nat) (mark : gmap string table)
    (seed : string) (uniq : gset string) (n : nat) (g : G)
    : list string * stop :=
  match n with
  | O => ([], Taken)
  | S n' =>
      match rounds with
      | O => ([], NoFuel)
      | S rounds' =>
          match markov_randwalk fuel mark seed g with
          | (None, _) => ([], NoFuel)
          | (Some (Raise e), _) => ([], Raised e)
          | (Some (Ok title), g') =>
              if bool_decide (title = seed) || bool_decide (title ∈ uniq)
              then titles_from rounds' fuel mark seed uniq n g' (* continue *)
              else
                let (more, why) :=
                  titles_from rounds' fuel mark seed ({[title]} ∪ uniq) n' g' in
                (title :: more, why)
          end
      end
  end.

Definition titles (rounds fuel : nat) (mark : gmap string table)
    (seed : string) (n : nat) (g : G) : list string * stop :=
  titles_from rounds fuel mark seed ∅ n g.

End Random.

(** ** Definitions used to state the properties *)

(** The table after [d[k] = d.get(k, 0) + 1], the one update the builder
    makes (lines 133, 140, 146 and 148). *)
Definition table_incr (k : string) (t : table) : table :=
  table_set k (default 0 (table_get k t) + 1) t.

(** Every edge has weight at least 1, and every edge to a symbol other
    than [END] leads to a key of the chain. *)
Definition chain_wf (mark : gmap string table) : Prop :=
  forall (s : string) (tbl : table) (w : string) (n : Z),
    mark !! s = Some tbl -> (w, n) ∈ tbl ->
    1 <= n /\ (w <> END -> is_Some (mark !! w)).

(** The symbol that a title counts in the table of [START]: its first
    token, or [END] when the loop over its tokens stops at once. *)
Definition first_symbol (title : string) : string :=
  match split title with
  | [] => END
  | word :: _ => if String.eqb word EmptyString then END else word
  end.

(** The input with its [None] entries filtered out. *)
Definition without_None (titles : list (option string)) : list (option string) :=
  List.filter (fun t => match t with Some _ => true | None => false end) titles.

(** Does the loop over the tokens of [title] stop at its first token? *)
Definition empty_first (title : string) : bool :=
  match split title with
  | [] => false
  | word :: _ => String.eqb word EmptyString
  end.

Definition count_empty_first (titles : list string) : Z :=
  Z.of_nat (length (List.filter empty_first titles)).

(** A generator that always draws the upper bound [b] of [uniform(a, b)]. *)
Definition uniform_top (a b : Z) (g : unit) : Q * unit := (inject_Z b, g).

(** A generator with a counter as state: draw number [g] of
    [uniform(a, b)] is [g mod (b + 1)]. *)
Definition uniform_cycle (a b : Z) (g : nat) : Q * nat :=
  (inject_Z (Z.of_nat g mod (b + 1)), S g).

(** The chain of the single title ["the godfather"]. *)
Definition godfather_chain : gmap string table :=
  <["godfather" := [(END, 1)]]>
    (<["the" := [("godfather", 1)]]> {[ START := [("the", 1)] ]}).

(** A token as the cleaner hands it on inside a title: no space in it. *)
Fixpoint no_space (s : string) : bool :=
  match s with
  | EmptyString => true
  | String c rest => negb (Ascii.eqb c " "%char) && no_space rest
  end.

(** ** Further definitions: reading the chain and the walk *)

(** The tokens of a title that the loop of lines 125-142 gets to: those
    before the first empty token. *)
Fixpoint processed (words : list string) : list string :=
  match words with
  | [] => []
  | word :: rest =>
      if String.eqb word EmptyString then [] else word :: processed rest
  end.

(** The titles that the loop of lines 114-148 gets to: those before the
    first [None]. *)
Fixpoint read_titles (titles : list (option string)) : list string :=
  match titles with
  | Some title :: rest => title :: read_titles rest
  | _ => []
  end.

(** The pairs (symbol, successor) along a title: from [previous] through
    the words to [END]. *)
Fixpoint transitions (previous : string) (words : list string)
    : list (string * string) :=
  match words with
  | [] => [(previous, END)]
  | word :: rest => (previous, word) :: transitions word rest
  end.

Definition all_transitions (titles : list (option string))
    : list (string * string) :=
  flat_map (fun title => transitions START (processed (split title)))
    (read_titles titles).

Fixpoint count_transitions (s w : string) (l : list (string * string)) : Z :=
  match l with
  | [] => 0
  | (a, b) :: rest =>
      (if String.eqb s a && String.eqb w b then 1 else 0)
      + count_transitions s w rest
  end.

(** [mark[s][w]], or 0 without such an edge. *)
Definition weight (mark : gmap string table) (s w : string) : Z :=
  match mark !! s with
  | Some tbl => default 0 (table_get w tbl)
  | None => 0
  end.

(** [mark[s].get(w)]: the edge from [s] to [w], if there is one. *)
Definition edge (mark : gmap string table) (s w : string) : option Z :=
  match mark !! s with
  | Some tbl => table_get w tbl
  | None => None
  end.

(** No key of the chain has an empty table. *)
Definition chain_live (mark : gmap string table) : Prop :=
  forall (s : string) (tbl : table), mark !! s = Some tbl -> tbl <> [].

(** The words [ws] are a walk through the chain that leaves the table
    [tbl] and ends on an [END] edge. *)
Fixpoint walk_path (mark : gmap string table) (tbl : table)
    (ws : list string) : Prop :=
  match ws with
  | [] => END ∈ map fst tbl
  | w :: rest =>
      w <> END /\ w ∈ map fst tbl
      /\ exists tbl', mark !! w = Some tbl' /\ walk_path mark tbl' rest
  end.

(** The words a walk from [start] begins its title with (lines 82-87). *)
Definition title_start (start : string) : list string :=
  if String.eqb start START then [] else [start].

(** A generator that draws twice the upper bound, out of range. *)
Definition uniform_over (a b : Z) (g : unit) : Q * unit :=
  (inject_Z (2 * b), g).

(** ** Cleaning the input: [cleanline] and [clean_input] *)

(** The lines come from [decode('ISO-8859-1')] (line 21): every character
    is one of the code points 0 to 255, an [ascii] here. *)

(** Line 29: the class [badchars], that is the double quote (34), the
    single quote, the newline and the two parentheses. *)
Definition badchar (c : ascii) : bool :=
  Ascii.eqb c (ascii_of_nat 34) || Ascii.eqb c "'"%char
  || Ascii.eqb c (ascii_of_nat 10)
  || Ascii.eqb c "("%char || Ascii.eqb c ")"%char.

(** [re.sub(badchars, '', s)] *)
Fixpoint remove_badchars (s : string) : string :=
  match s with
  | EmptyString => EmptyString
  | String c rest =>
      if badchar c then remove_badchars rest
      else String c (remove_badchars rest)
  end.

(** [str.lower] on the code points 0 to 255: the letters A-Z (65-90) and
    the capital letters 192-222 of Latin-1, the multiplication sign 215
    apart, move up by 32; nothing else changes. *)
Definition lower_char (c : ascii) : ascii :=
  let n := nat_of_ascii c in
  if ((65 <=? n)%nat && (n <=? 90)%nat)
     || ((192 <=? n)%nat && (n <=? 222)%nat && negb (n =? 215)%nat)
  then ascii_of_nat (n + 32) else c.

Fixpoint lower (s : string) : string :=
  match s with
  | EmptyString => EmptyString
  | String c rest => String (lower_char c) (lower rest)
  end.

(** Does the character [c] occur in [s]? *)
Fixpoint occurs (c : ascii) (s : string) : bool :=
  match s with
  | EmptyString => false
  | String c' rest => Ascii.eqb c c' || occurs c rest
  end.

Section Cleaning.
(** [re.search(titleregex, line)] followed by [match.group(1)]: [None]
    when the line does not match.  The regular expression engine is not
    modelled. *)
Variable title_group : string -> option string.

(** Lines 31-47; the [print] of line 39 is left out. *)
Definition cleanline (line : string) : option string :=
  match title_group line with
  | None => None
  | Some dirtyTitle => Some (lower (remove_badchars dirtyTitle))
  end.

(** Lines 49-60: the set of the cleaned names. *)
Definition clean_input (names : list string) : gset (option string) :=
  list_to_set (cleanline <$> names).

End Cleaning.

(** The list [l] is the elements of the set [X] in some order, each
    once: what a [for] loop over a Python set goes through. *)
Definition enumerates (l : list (option string)) (X : gset (option string))
    : Prop :=
  NoDup l /\ forall x, x ∈ l <-> x ∈ X.

(** A stand-in for the match of the regular expression: the line up to
    its first space. *)
Definition first_word (line : string) : option string :=
  match split line with
  | word :: _ :: _ => Some word
  | _ => None
  end.

(** ** Sanity checks of the model on concrete inputs *)

Example split_two : split "the godfather" = ["the"; "godfather"].
Proof. reflexivity. Qed.

Example split_empty : split EmptyString = [EmptyString].
Proof. reflexivity. Qed.

Example split_double_space : split "a  b" = ["a"; EmptyString; "b"].
Proof. reflexivity. Qed.

Example split_edges : split " a " = [EmptyString; "a"; EmptyString].
Proof. reflexivity. Qed.

Example table_set_keeps_order :
  table_set "a" 5 [("a", 1); ("b", 2)] = [("a", 5); ("b", 2)]
  /\ table_set "c" 1 [("a", 1); ("b", 2)] = [("a", 1); ("b", 2); ("c", 1)].
Proof. split; reflexivity. Qed.

(** ** Titles and token sequences *)

Lemma split_no_space (w : string) : no_space w = true -> split w = [w].
Proof.
  induction w as [|c w IH]; simpl; [reflexivity|].
  destruct (Ascii.eqb c " "); simpl; [discriminate|].
  intros H. rewrite (IH H). reflexivity.
Qed.

Lemma split_append (w rest : string) :
  no_space w = true -> split (w ++ String " " rest) = w :: split rest.
Proof.
  induction w as [|c w IH]; simpl; [reflexivity|].
  destruct (Ascii.eqb c " "); simpl; [discriminate|].
  intros H. rewrite (IH H). reflexivity.
Qed.

(** A title is its token sequence joined by single spaces: splitting it
    gives the tokens back, so a property of [calculate_chain] stated on
    the tokens of [split title] is one on token sequences. *)
Lemma split_join (words : list string) :
  words <> [] -> Forall (fun w => no_space w = true) words ->
  split (join words) = words.
Proof.
  intros Hne Hall. induction Hall as [|w rest Hw Hrest IH]; [congruence|].
  destruct rest as [|w' rest'].
  - apply split_no_space, Hw.
  - change (join (w :: w' :: rest')) with (w ++ String " " (join (w' :: rest'))).
    rewrite (split_append _ _ Hw), IH by discriminate. reflexivity.
Qed.

(** ** The weighted sampler *)

Lemma fold_left_weights (choices : table) (acc : Z) :
  fold_left (fun acc cw => acc + snd cw) choices acc = acc + sum_weights choices.
Proof.
  unfold sum_weights. revert acc.
  induction choices as [|[c w] rest IH]; intros acc; simpl.
  - lia.
  - rewrite (IH (acc + w)), (IH (0 + w)). lia.
Qed.

Lemma sum_weights_nil : sum_weights [] = 0.
Proof. reflexivity. Qed.

Lemma sum_weights_cons (c : string) (w : Z) (rest : table) :
  sum_weights ((c, w) :: rest) = w + sum_weights rest.
Proof. unfold sum_weights at 1. simpl. rewrite fold_left_weights. lia. Qed.

Lemma sum_weights_app (t1 t2 : table) :
  sum_weights (t1 ++ t2)%list = sum_weights t1 + sum_weights t2.
Proof.
  induction t1 as [|[c w] rest IH]; simpl.
  - rewrite sum_weights_nil. lia.
  - rewrite !sum_weights_cons, IH. lia.
Qed.

Lemma sum_weights_nonneg (t : table) :
  Forall (fun cw => 0 < snd cw) t -> 0 <= sum_weights t.
Proof.
  induction 1 as [|[c w] rest Hw _ IH]; simpl in *.
  - rewrite sum_weights_nil. lia.
  - rewrite sum_weights_cons. lia.
Qed.

(** The scan cannot fall through when the draw is at most the running sum
    plus what is left to add: the last pair compares the draw with exactly
    that bound. *)
Lemma weighted_choice_loop_selects (choices : table) (upto : Z) (randval : Q) :
  choices <> [] ->
  (randval <= inject_Z (upto + sum_weights choices))%Q ->
  exists choice,
    weighted_choice_loop choices upto randval = Ok choice
    /\ choice ∈ map fst choices.
Proof.
  revert upto. induction choices as [|[c w] rest IH]; intros upto Hne Hle.
  - congruence.
  - simpl. destruct (Qle_bool randval (inject_Z (upto + w))) eqn:Hcmp.
    + exists c. split; [reflexivity | left].
    + destruct rest as [|p rest'].
      * rewrite sum_weights_cons, sum_weights_nil, Z.add_0_r in Hle.
        apply Qle_bool_iff in Hle. congruence.
      * destruct (IH (upto + w)) as (x & Hx & Hin).
        -- discriminate.
        -- rewrite sum_weights_cons in Hle.
           rewrite <- Z.add_assoc. exact Hle.
        -- exists x. split; [exact Hx | right; exact Hin].
Qed.

Lemma weighted_choice_loop_single (x : string) (w : Z) (randval : Q) :
  (randval <= inject_Z w)%Q -> weighted_choice_loop [(x, w)] 0 randval = Ok x.
Proof.
  intros Hle. simpl. rewrite Z.add_0_l.
  apply Qle_bool_iff in Hle. rewrite Hle. reflexivity.
Qed.

Section RandomFacts.
Context {G : Type}.
Variable uniform : Z -> Z -> G -> Q * G.

Lemma weighted_choice_fst (choices : table) (g : G) :
  fst (weighted_choice uniform choices g)
  = weighted_choice_loop choices 0
      (fst (uniform 0 (sum_weights choices) g)).
Proof. unfold weighted_choice. destruct (uniform _ _ g); reflexivity. Qed.

Lemma weighted_choice_snd (choices : table) (g : G) :
  snd (weighted_choice uniform choices g)
  = snd (uniform 0 (sum_weights choices) g).
Proof. unfold weighted_choice. destruct (uniform _ _ g); reflexivity. Qed.

(** C2: on a non-empty list of pairs with positive weights, a draw in
    [[0, total]] (the bound [total] included) makes the scan of
    [weighted_choice] return one of the items: the [assert False] after
    the loop is not reached. *)
Theorem weighted_choice_selects (choices : table) (g : G) :
  choices <> [] ->
  Forall (fun cw => 0 < snd cw) choices ->
  (0 <= fst (uniform 0 (sum_weights choices) g)
     <= inject_Z (sum_weights choices))%Q ->
  exists choice,
    fst (weighted_choice uniform choices g) = Ok choice
    /\ choice ∈ map fst choices.
Proof.
  intros Hne _ [_ Hle]. rewrite weighted_choice_fst.
  apply weighted_choice_loop_selects; [exact Hne | exact Hle].
Qed.

(** C9: on the single pair [[(x, w)]] every draw in [[0, w]] returns
    [x], whatever the weight [w]. *)
Theorem weighted_choice_single (x : string) (w : Z) (g : G) :
  (0 <= fst (uniform 0 (sum_weights [(x, w)]) g) <= inject_Z w)%Q ->
  fst (weighted_choice uniform [(x, w)] g) = Ok x.
Proof.
  intros [_ Hle]. rewrite weighted_choice_fst.
  apply weighted_choice_loop_single, Hle.
Qed.

End RandomFacts.

Lemma weighted_choice_selects_witness :
  exists choice,
    fst (weighted_choice uniform_top [("a", 1); ("b", 3)] tt) = Ok choice
    /\ choice ∈ map fst [("a", 1); ("b", 3)].
Proof.
  apply (weighted_choice_selects uniform_top [("a", 1); ("b", 3)] tt).
  - discriminate.
  - repeat constructor.
  - split; vm_compute; discriminate.
Defined.

Lemma weighted_choice_single_witness :
  fst (weighted_choice uniform_top [("x", 5)] tt) = Ok "x".
Proof.
  apply (weighted_choice_single uniform_top "x" 5 tt).
  split; vm_compute; discriminate.
Defined.

(** ** The random walk *)

Lemma weighted_choice_loop_raises (choices : table) (upto : Z) (randval : Q)
    (e : exn) :
  weighted_choice_loop choices upto randval = Raise e -> e = AssertionError.
Proof.
  revert upto. induction choices as [|[c w] rest IH]; intros upto; simpl.
  - congruence.
  - destruct (Qle_bool _ _); [discriminate | apply IH].
Qed.

Section WalkFacts.
Context {G : Type}.
Variable uniform : Z -> Z -> G -> Q * G.

Lemma weighted_choice_raises (choices : table) (g g' : G) (e : exn) :
  weighted_choice uniform choices g = (Raise e, g') -> e = AssertionError.
Proof.
  unfold weighted_choice. destruct (uniform _ _ g) as [r g1].
  intros [= H _]. eapply weighted_choice_loop_raises, H.
Qed.

(** A [KeyError] leaving the loop of the walk names a symbol that is
    not a key of the chain. *)
Lemma randwalk_loop_key_error (fuel : nat) (mark : gmap string table)
    (previous : table) (title : list string) (g : G) (k : string) :
  fst (randwalk_loop uniform fuel mark previous title g)
    = Some (Raise (KeyError k)) ->
  mark !! k = None.
Proof.
  revert previous title g.
  induction fuel as [|fuel IH]; intros previous title g; simpl.
  - discriminate.
  - destruct (weighted_choice uniform previous g) as [[newword|e] g'] eqn:Hwc.
    + destruct (String.eqb newword END); [discriminate|].
      destruct (mark !! newword) as [tbl|] eqn:Hnew.
      * apply IH.
      * simpl. intros [= <-]. exact Hnew.
    + apply weighted_choice_raises in Hwc. subst e. discriminate.
Qed.

(** C5: the walk raises the [KeyError] of its first subscript
    [mark[start]] exactly when [start] is not a key of the chain; when
    it is a key, no run of the walk raises that error. *)
Theorem markov_randwalk_start_error (fuel : nat) (mark : gmap string table)
    (start : string) (g : G) :
  fst (markov_randwalk uniform fuel mark start g)
    = Some (Raise (KeyError start))
  <-> mark !! start = None.
Proof.
  unfold markov_randwalk. split.
  - destruct (mark !! start) as [previous|] eqn:Hstart; [|reflexivity].
    intros H. apply randwalk_loop_key_error in H. congruence.
  - intros ->. reflexivity.
Qed.

(** C6: in one turn of the loop of the walk, a sampled successor that
    is neither [END] nor a key of the chain makes the walk raise the
    [KeyError] of that symbol at once; a successor that is a key makes
    the walk go on from its table, and no later turn raises that
    error. *)
Theorem randwalk_loop_unknown_symbol (fuel : nat) (mark : gmap string table)
    (previous : table) (title : list string) (g g' : G) (newword : string) :
  weighted_choice uniform previous g = (Ok newword, g') ->
  newword <> END ->
  (mark !! newword = None ->
     randwalk_loop uniform (S fuel) mark previous title g
     = (Some (Raise (KeyError newword)), g'))
  /\ (forall tbl, mark !! newword = Some tbl ->
        randwalk_loop uniform (S fuel) mark previous title g
        = randwalk_loop uniform fuel mark tbl (title ++ [newword]) g'
        /\ fst (randwalk_loop uniform (S fuel) mark previous title g)
           <> Some (Raise (KeyError newword))).
Proof.
  intros Hwc Hend.
  assert (Hneq : String.eqb newword END = false)
    by (apply String.eqb_neq; exact Hend).
  split.
  - intros Hnone. simpl. rewrite Hwc, Hneq, Hnone. reflexivity.
  - intros tbl Hsome.
    assert (Hstep : randwalk_loop uniform (S fuel) mark previous title g
                    = randwalk_loop uniform fuel mark tbl (title ++ [newword]) g')
      by (simpl; rewrite Hwc, Hneq, Hsome; reflexivity).
    split; [exact Hstep|].
    rewrite Hstep. intros H. apply randwalk_loop_key_error in H. congruence.
Qed.

(** A table with a single edge leaves the sampler no choice. *)
Lemma weighted_choice_forced (w : string) (n : Z) (g : G) :
  uniform_in_range uniform -> 0 <= n ->
  weighted_choice uniform [(w, n)] g
  = (Ok w, snd (uniform 0 (sum_weights [(w, n)]) g)).
Proof.
  intros Hrange Hn.
  rewrite (surjective_pairing (weighted_choice uniform _ g)).
  rewrite weighted_choice_snd, weighted_choice_fst. f_equal.
  apply weighted_choice_loop_single.
  rewrite (sum_weights_cons w n []), sum_weights_nil, Z.add_0_r.
  apply Hrange, Hn.
Qed.

End WalkFacts.

Lemma calculate_chain_godfather :
  calculate_chain [Some "the godfather"] = Ok godfather_chain.
Proof. vm_compute. reflexivity. Qed.

(** C8: on the chain built from the one title ["the godfather"] (tokens
    [the], [godfather]) the walk from [START] returns ["the godfather"]
    for every generator whose draws are in range, given fuel for its three
    turns. *)
Theorem godfather_walk {G : Type} (uniform : Z -> Z -> G -> Q * G)
    (fuel : nat) (g : G) :
  uniform_in_range uniform ->
  (3 <= fuel)%nat ->
  exists mark,
    calculate_chain [Some "the godfather"] = Ok mark
    /\ fst (markov_randwalk uniform fuel mark START g)
       = Some (Ok "the godfather").
Proof.
  intros Hrange Hfuel. exists godfather_chain.
  split; [exact calculate_chain_godfather|].
  destruct fuel as [|[|[|fuel]]]; [lia | lia | lia |].
  unfold markov_randwalk.
  replace (godfather_chain !! START) with (Some [("the", 1)]) by reflexivity.
  replace (String.eqb START START) with true by reflexivity.
  cbn [randwalk_loop].
  rewrite (weighted_choice_forced uniform "the" 1 g Hrange) by lia.
  replace (String.eqb "the" END) with false by reflexivity.
  replace (godfather_chain !! "the") with (Some [("godfather", 1)])
    by reflexivity.
  rewrite (weighted_choice_forced uniform "godfather" 1 _ Hrange) by lia.
  replace (String.eqb "godfather" END) with false by reflexivity.
  replace (godfather_chain !! "godfather") with (Some [(END, 1)])
    by reflexivity.
  rewrite (weighted_choice_forced uniform END 1 _ Hrange) by lia.
  replace (String.eqb END END) with true by reflexivity.
  reflexivity.
Qed.

Lemma uniform_top_in_range : uniform_in_range uniform_top.
Proof.
  intros b g Hb. unfold uniform_top. simpl.
  split; unfold Qle; simpl; lia.
Qed.

Lemma markov_randwalk_unknown_witness :
  randwalk_loop uniform_top 1 {[ START := [("x", 1)] ]} [("x", 1)] [] tt
  = (Some (Raise (KeyError "x")), tt).
Proof.
  apply (proj1 (randwalk_loop_unknown_symbol uniform_top 0
                  {[ START := [("x", 1)] ]} [("x", 1)] [] tt tt "x"
                  eq_refl ltac:(discriminate))).
  reflexivity.
Defined.

Lemma godfather_walk_witness :
  exists mark,
    calculate_chain [Some "the godfather"] = Ok mark
    /\ fst (markov_randwalk uniform_top 3 mark START tt)
       = Some (Ok "the godfather").
Proof.
  apply (godfather_walk uniform_top 3 tt).
  - exact uniform_top_in_range.
  - lia.
Defined.

(** ** The generator of unique titles *)

Section StreamFacts.
Context {G : Type}.
Variable uniform : Z -> Z -> G -> Q * G.

(** The titles handed out are pairwise distinct, differ from the seed
    and were not in [uniq] when the run started. *)
Lemma titles_from_fresh (rounds fuel : nat) (mark : gmap string table)
    (seed : string) (uniq : gset string) (n : nat) (g : G) :
  let out := fst (titles_from uniform rounds fuel mark seed uniq n g) in
  NoDup out /\ (seed ∉ out) /\ (forall x, x ∈ out -> x ∉ uniq).
Proof.
  revert uniq n g.
  induction rounds as [|rounds IH]; intros uniq n g; destruct n as [|n];
    simpl; try (split; [constructor | split; [|intros x]; set_solver]).
  destruct (markov_randwalk uniform fuel mark seed g) as [[[title|e]|] g'];
    simpl; try (split; [constructor | split; [|intros x]; set_solver]).
  destruct (bool_decide (title = seed) || bool_decide (title ∈ uniq))
    eqn:Hskip.
  - apply IH.
  - apply orb_false_elim in Hskip as [Hseed Huniq].
    apply bool_decide_eq_false in Hseed, Huniq.
    specialize (IH ({[title]} ∪ uniq) n g').
    destruct (titles_from uniform rounds fuel mark seed ({[title]} ∪ uniq) n g')
      as [more why]; simpl in *.
    destruct IH as (Hnd & Hns & Hfresh).
    split; [|split].
    + constructor; [|exact Hnd].
      intros Hin. apply Hfresh in Hin. set_solver.
    + intros Hin. apply elem_of_cons in Hin as [->|Hin]; [congruence|].
      exact (Hns Hin).
    + intros x Hin. apply elem_of_cons in Hin as [->|Hin]; [exact Huniq|].
      apply Hfresh in Hin. set_solver.
Qed.

(** C3: for every chain, seed and [n], the titles that one run of the
    generator [titles] hands to a consumer asking for [n] of them are
    pairwise distinct and none of them is the seed. *)
Theorem titles_unique (rounds fuel : nat) (mark : gmap string table)
    (seed : string) (n : nat) (g : G) :
  let out := fst (titles uniform rounds fuel mark seed n g) in
  NoDup out /\ (seed ∉ out).
Proof.
  destruct (titles_from_fresh rounds fuel mark seed ∅ n g) as (Hnd & Hns & _).
  split; assumption.
Qed.

(** A consumer asking for [n] titles gets at most [n], and exactly [n]
    when the run stops as [Taken]. *)
Lemma titles_from_length (rounds fuel : nat) (mark : gmap string table)
    (seed : string) (uniq : gset string) (n : nat) (g : G) :
  let run := titles_from uniform rounds fuel mark seed uniq n g in
  (length (fst run) <= n)%nat
  /\ (snd run = Taken -> length (fst run) = n).
Proof.
  revert uniq n g.
  induction rounds as [|rounds IH]; intros uniq n g; destruct n as [|n];
    simpl; try (split; [lia | congruence]).
  destruct (markov_randwalk uniform fuel mark seed g) as [[[title|e]|] g'];
    simpl; try (split; [lia | congruence]).
  destruct (bool_decide (title = seed) || bool_decide (title ∈ uniq)).
  - apply IH.
  - specialize (IH ({[title]} ∪ uniq) n g').
    destruct (titles_from uniform rounds fuel mark seed ({[title]} ∪ uniq) n g')
      as [more why]; simpl in *.
    destruct IH as [Hle Heq]. split; [lia|].
    intros Hw. rewrite (Heq Hw). reflexivity.
Qed.

End StreamFacts.

(** ** Edge tables *)

Lemma table_get_set (k k' : string) (v : Z) (t : table) :
  table_get k' (table_set k v t)
  = if String.eqb k' k then Some v else table_get k' t.
Proof.
  induction t as [|[a b] rest IH]; simpl.
  - reflexivity.
  - destruct (String.eqb_spec k a) as [->|Hka]; simpl.
    + destruct (String.eqb k' a); reflexivity.
    + rewrite IH. destruct (String.eqb_spec k' a) as [->|Hk'a].
      * destruct (String.eqb_spec a k); [congruence | reflexivity].
      * reflexivity.
Qed.

Lemma table_get_elem_of (k : string) (v : Z) (t : table) :
  table_get k t = Some v -> (k, v) ∈ t.
Proof.
  induction t as [|[a b] rest IH]; simpl.
  - discriminate.
  - destruct (String.eqb_spec k a) as [->|Hka].
    + intros [= ->]. left.
    + intros H. right. exact (IH H).
Qed.

Lemma elem_of_table_set (k w : string) (v n : Z) (t : table) :
  (w, n) ∈ table_set k v t -> (w = k /\ n = v) \/ (w, n) ∈ t.
Proof.
  induction t as [|[a b] rest IH]; simpl.
  - intros H. apply list_elem_of_singleton in H as [= -> ->]. left. auto.
  - destruct (String.eqb_spec k a) as [->|Hka]; intros H;
      apply elem_of_cons in H as [[= -> ->]|H].
    + left. auto.
    + right. right. exact H.
    + right. left.
    + destruct (IH H) as [?|?]; [left; assumption | right; right; assumption].
Qed.

Lemma sum_weights_table_set (k : string) (v : Z) (t : table) :
  sum_weights (table_set k v t)
  = sum_weights t - default 0 (table_get k t) + v.
Proof.
  induction t as [|[a b] rest IH]; simpl.
  - rewrite sum_weights_cons, sum_weights_nil. lia.
  - destruct (String.eqb_spec k a) as [->|Hka]; simpl.
    + rewrite !sum_weights_cons. lia.
    + rewrite !sum_weights_cons, IH. lia.
Qed.

Lemma sum_weights_table_incr (k : string) (t : table) :
  sum_weights (table_incr k t) = sum_weights t + 1.
Proof. unfold table_incr. rewrite sum_weights_table_set. lia. Qed.

Lemma table_get_incr (k k' : string) (t : table) :
  table_get k' (table_incr k t)
  = if String.eqb k' k then Some (default 0 (table_get k t) + 1)
    else table_get k' t.
Proof. apply table_get_set. Qed.

(** ** Invariants of the chain under construction *)

(** One update of the table under [p], possibly with new empty tables,
    keeps the invariant when the updated edge is well formed. *)
Lemma chain_wf_update (mark mark' : gmap string table) (p : string)
    (tbl : table) (w : string) (v : Z) :
  chain_wf mark ->
  mark !! p = Some tbl ->
  (forall k, is_Some (mark !! k) -> is_Some (mark' !! k)) ->
  (forall s t', mark' !! s = Some t' ->
     (s = p /\ t' = table_set w v tbl) \/ mark !! s = Some t' \/ t' = []) ->
  1 <= v ->
  (w <> END -> is_Some (mark' !! w)) ->
  chain_wf mark'.
Proof.
  intros Hwf Hp Hmono Hshape Hv Hw s t' x n Hs Hin.
  destruct (Hshape s t' Hs) as [[-> ->]|[Hold| ->]].
  - apply elem_of_table_set in Hin as [[-> ->]|Hin].
    + split; assumption.
    + destruct (Hwf p tbl x n Hp Hin) as [Hn Hx].
      split; [exact Hn | intros Hne; apply Hmono, Hx, Hne].
  - destruct (Hwf s t' x n Hold Hin) as [Hn Hx].
    split; [exact Hn | intros Hne; apply Hmono, Hx, Hne].
  - apply elem_of_nil in Hin. contradiction.
Qed.

Lemma note_word_previous (mark : gmap string table) (previous : string)
    (tbl : table) (word : string) :
  mark !! previous = Some tbl ->
  note_word mark previous tbl word !! previous = Some (table_incr word tbl).
Proof.
  intros Hp. unfold note_word, table_incr.
  destruct (table_get word tbl) as [n|] eqn:Hget; simpl.
  - apply lookup_insert_eq.
  - destruct (<[previous:=table_set word 1 tbl]> mark !! word) eqn:Hword.
    + apply lookup_insert_eq.
    + rewrite lookup_insert_ne; [apply lookup_insert_eq|].
      intros ->. rewrite lookup_insert_eq in Hword. discriminate.
Qed.

Lemma note_word_mono (mark : gmap string table) (previous : string)
    (tbl : table) (word k : string) :
  is_Some (mark !! k) -> is_Some (note_word mark previous tbl word !! k).
Proof.
  intros Hk. unfold note_word.
  destruct (table_get word tbl) as [n|].
  - apply lookup_insert_is_Some'. right. exact Hk.
  - destruct (<[previous:=table_set word 1 tbl]> mark !! word).
    + apply lookup_insert_is_Some'. right. exact Hk.
    + do 2 (apply lookup_insert_is_Some'; right). exact Hk.
Qed.

Lemma note_word_other (mark : gmap string table) (previous : string)
    (tbl : table) (word k : string) :
  k <> previous -> is_Some (mark !! k) ->
  note_word mark previous tbl word !! k = mark !! k.
Proof.
  intros Hne Hk. unfold note_word.
  destruct (table_get word tbl) as [n|].
  - apply lookup_insert_ne. congruence.
  - destruct (<[previous:=table_set word 1 tbl]> mark !! word) eqn:Hword.
    + apply lookup_insert_ne. congruence.
    + rewrite lookup_insert_ne.
      * apply lookup_insert_ne. congruence.
      * intros ->. rewrite lookup_insert_ne in Hword by congruence.
        rewrite Hword in Hk. destruct Hk as [? [=]].
Qed.

Lemma note_word_shape (mark : gmap string table) (previous : string)
    (tbl : table) (word s : string) (t' : table) :
  note_word mark previous tbl word !! s = Some t' ->
  (s = previous /\ t' = table_incr word tbl) \/ mark !! s = Some t' \/ t' = [].
Proof.
  unfold note_word, table_incr.
  destruct (table_get word tbl) as [n|] eqn:Hget; simpl.
  - destruct (decide (s = previous)) as [->|Hne].
    + rewrite lookup_insert_eq. intros [= <-]. left. auto.
    + rewrite lookup_insert_ne by congruence. auto.
  - destruct (<[previous:=table_set word 1 tbl]> mark !! word) eqn:Hword.
    + destruct (decide (s = previous)) as [->|Hne].
      * rewrite lookup_insert_eq. intros [= <-]. left. auto.
      * rewrite lookup_insert_ne by congruence. auto.
    + destruct (decide (s = word)) as [->|Hsw].
      * rewrite lookup_insert_eq. intros [= <-]. auto.
      * rewrite lookup_insert_ne by congruence.
        destruct (decide (s = previous)) as [->|Hne].
        -- rewrite lookup_insert_eq. intros [= <-]. left. auto.
        -- rewrite lookup_insert_ne by congruence. auto.
Qed.

(** After line 137 a word that was not yet in [previous] is a key. *)
Lemma note_word_fresh (mark : gmap string table) (previous : string)
    (tbl : table) (word : string) :
  table_get word tbl = None ->
  is_Some (note_word mark previous tbl word !! word).
Proof.
  intros Hget. unfold note_word. rewrite Hget.
  destruct (<[previous:=table_set word 1 tbl]> mark !! word) eqn:Hword.
  - rewrite Hword. eauto.
  - rewrite lookup_insert_eq. eauto.
Qed.

(** Line 142 finds its key unless [word] is the string of the [END]
    symbol and [previous] already has its [END] edge. *)
Lemma note_word_key (mark : gmap string table) (previous : string)
    (tbl : table) (word : string) :
  chain_wf mark -> mark !! previous = Some tbl -> word <> END ->
  is_Some (note_word mark previous tbl word !! word).
Proof.
  intros Hwf Hp Hne.
  destruct (table_get word tbl) as [n|] eqn:Hget.
  - apply note_word_mono.
    apply table_get_elem_of in Hget.
    destruct (Hwf previous tbl word n Hp Hget) as [_ Hkey]. exact (Hkey Hne).
  - apply note_word_fresh, Hget.
Qed.

Lemma note_word_wf (mark : gmap string table) (previous : string)
    (tbl : table) (word : string) :
  chain_wf mark -> mark !! previous = Some tbl ->
  is_Some (note_word mark previous tbl word !! word) ->
  chain_wf (note_word mark previous tbl word).
Proof.
  intros Hwf Hp Hkey.
  apply (chain_wf_update mark _ previous tbl word
           (default 0 (table_get word tbl) + 1)); try assumption.
  - intros k. apply note_word_mono.
  - intros s t'. apply note_word_shape.
  - destruct (table_get word tbl) as [n|] eqn:Hget; simpl; [|lia].
    apply table_get_elem_of in Hget.
    destruct (Hwf previous tbl word n Hp Hget). lia.
  - intros _. exact Hkey.
Qed.

Lemma end_title_incr (mark : gmap string table) (previous : string)
    (tbl : table) :
  mark !! previous = Some tbl ->
  end_title mark previous = Ok (<[previous := table_incr END tbl]> mark).
Proof.
  intros Hp. unfold end_title, table_incr. rewrite Hp.
  destruct (table_get END tbl); reflexivity.
Qed.

Lemma end_title_wf (mark mark' : gmap string table) (previous : string) :
  chain_wf mark -> end_title mark previous = Ok mark' -> chain_wf mark'.
Proof.
  intros Hwf Hend.
  destruct (mark !! previous) as [tbl|] eqn:Hp;
    [|unfold end_title in Hend; rewrite Hp in Hend; discriminate].
  rewrite (end_title_incr mark previous tbl Hp) in Hend.
  injection Hend as <-.
  apply (chain_wf_update mark _ previous tbl END
           (default 0 (table_get END tbl) + 1)); try assumption.
  - intros k Hk. apply lookup_insert_is_Some'. right. exact Hk.
  - intros s t'. destruct (decide (s = previous)) as [->|Hne].
    + rewrite lookup_insert_eq. intros [= <-]. left. auto.
    + rewrite lookup_insert_ne by congruence. auto.
  - destruct (table_get END tbl) as [n|] eqn:Hget; simpl; [|lia].
    apply table_get_elem_of in Hget.
    destruct (Hwf previous tbl END n Hp Hget). lia.
  - congruence.
Qed.

(** ** The loops of the builder *)

Lemma words_loop_wf (words : list string) (mark m : gmap string table)
    (previous p : string) :
  chain_wf mark -> is_Some (mark !! previous) ->
  words_loop words mark previous = Ok (m, p) ->
  chain_wf m /\ is_Some (m !! p)
  /\ (forall k, is_Some (mark !! k) -> is_Some (m !! k)).
Proof.
  revert mark previous.
  induction words as [|word rest IH]; intros mark previous Hwf Hprev; simpl.
  - intros [= <- <-]. auto.
  - destruct (String.eqb word EmptyString); [intros [= <- <-]; auto|].
    destruct (mark !! previous) as [tbl|] eqn:Hp; [|discriminate].
    destruct (note_word mark previous tbl word !! word) as [t|] eqn:Hword;
      [|discriminate].
    intros Hloop.
    assert (Hkey : is_Some (note_word mark previous tbl word !! word))
      by (rewrite Hword; eauto).
    destruct (IH _ _ (note_word_wf mark previous tbl word Hwf Hp Hkey) Hkey Hloop)
      as (Hwf' & Hp' & Hmono).
    split; [exact Hwf'|]. split; [exact Hp'|].
    intros k Hk. apply Hmono, note_word_mono, Hk.
Qed.

(** The reference [previous] never dangles, and line 142 raises only on a
    token equal to the string of [END]. *)
Lemma words_loop_previous_key (words : list string) (mark : gmap string table)
    (previous : string) :
  chain_wf mark -> is_Some (mark !! previous) -> END ∉ words ->
  exists m p, words_loop words mark previous = Ok (m, p).
Proof.
  revert mark previous.
  induction words as [|word rest IH]; intros mark previous Hwf Hprev Hend; simpl.
  - eauto.
  - destruct (String.eqb word EmptyString); [eauto|].
    destruct Hprev as [tbl Hp]. rewrite Hp.
    apply not_elem_of_cons in Hend as [Hne Hend].
    assert (Hkey : is_Some (note_word mark previous tbl word !! word))
      by (apply note_word_key; [assumption | assumption | congruence]).
    destruct Hkey as [t Hword]. rewrite Hword.
    apply IH; [|rewrite Hword; eauto|exact Hend].
    apply note_word_wf; [assumption | assumption | rewrite Hword; eauto].
Qed.

(** Away from [START] the loop leaves the table of [START] alone, as long
    as no token is the string of [START]. *)
Lemma words_loop_away (words : list string) (mark m : gmap string table)
    (previous p : string) (st : table) :
  START ∉ words -> previous <> START -> mark !! START = Some st ->
  words_loop words mark previous = Ok (m, p) ->
  m !! START = Some st /\ p <> START.
Proof.
  revert mark previous.
  induction words as [|word rest IH]; intros mark previous Hns Hprev Hst; simpl.
  - intros [= <- <-]. auto.
  - destruct (String.eqb word EmptyString); [intros [= <- <-]; auto|].
    destruct (mark !! previous) as [tbl|] eqn:Hp; [|discriminate].
    destruct (note_word mark previous tbl word !! word) as [t|] eqn:Hword;
      [|discriminate].
    apply not_elem_of_cons in Hns as [Hne Hns].
    apply IH; [exact Hns | congruence |].
    rewrite note_word_other; [exact Hst | congruence | rewrite Hst; eauto].
Qed.

(** From [START] the loop counts the first token, if there is one to
    process, in the table of [START]. *)
Lemma words_loop_from_start (words : list string) (mark m : gmap string table)
    (p : string) (st : table) :
  START ∉ words -> mark !! START = Some st ->
  words_loop words mark START = Ok (m, p) ->
  match words with
  | [] => m = mark /\ p = START
  | word :: _ =>
      if String.eqb word EmptyString then m = mark /\ p = START
      else m !! START = Some (table_incr word st) /\ p <> START
  end.
Proof.
  intros Hns Hst. destruct words as [|word rest]; simpl.
  - intros [= <- <-]. auto.
  - destruct (String.eqb word EmptyString); [intros [= <- <-]; auto|].
    rewrite Hst.
    destruct (note_word mark START st word !! word) as [t|] eqn:Hword;
      [|discriminate].
    apply not_elem_of_cons in Hns as [Hne Hns].
    apply words_loop_away; [exact Hns | congruence |].
    apply note_word_previous, Hst.
Qed.

Lemma title_start_table (title : string) (mark m1 m2 : gmap string table)
    (p : string) (st : table) :
  START ∉ split title -> mark !! START = Some st ->
  words_loop (split title) mark START = Ok (m1, p) ->
  end_title m1 p = Ok m2 ->
  m2 !! START = Some (table_incr (first_symbol title) st).
Proof.
  intros Hns Hst Hloop Hend.
  pose proof (words_loop_from_start _ _ _ _ _ Hns Hst Hloop) as Hfirst.
  unfold first_symbol.
  assert (Hstay : m1 = mark /\ p = START ->
                  m2 !! START = Some (table_incr END st)).
  { intros [-> ->]. rewrite (end_title_incr mark START st Hst) in Hend.
    injection Hend as <-. apply lookup_insert_eq. }
  destruct (split title) as [|word rest]; [auto|].
  destruct (String.eqb word EmptyString); [auto|].
  destruct Hfirst as [Hst1 Hp].
  unfold end_title in Hend.
  destruct (m1 !! p) as [tbl|] eqn:Hm1p; [|discriminate].
  destruct (table_get END tbl); injection Hend as <-;
    rewrite lookup_insert_ne by congruence; exact Hst1.
Qed.

Lemma titles_loop_wf (titles : list (option string))
    (mark m : gmap string table) :
  chain_wf mark -> is_Some (mark !! START) ->
  titles_loop titles mark = Ok m ->
  chain_wf m /\ is_Some (m !! START).
Proof.
  revert mark.
  induction titles as [|[title|] rest IH]; intros mark Hwf Hst; simpl;
    try (intros [= <-]; auto).
  destruct Hst as [st Hstart]. rewrite Hstart.
  assert (Hst : is_Some (mark !! START)) by (rewrite Hstart; eauto).
  destruct (words_loop (split title) mark START) as [[m1 p]|e] eqn:Hloop;
    [|discriminate].
  destruct (end_title m1 p) as [m2|e] eqn:Hend; [|discriminate].
  destruct (words_loop_wf _ _ _ _ _ Hwf Hst Hloop) as (Hwf1 & Hp & Hmono).
  apply IH.
  - eapply end_title_wf; eassumption.
  - unfold end_title in Hend.
    destruct (m1 !! p) as [tbl|]; [|discriminate].
    assert (is_Some (m1 !! START)) by (apply Hmono; exact Hst).
    destruct (table_get END tbl); injection Hend as <-;
      apply lookup_insert_is_Some'; right; assumption.
Qed.

Lemma titles_loop_total (titles : list (option string))
    (mark : gmap string table) :
  chain_wf mark -> is_Some (mark !! START) ->
  Forall (fun t => forall title, t = Some title -> END ∉ split title) titles ->
  exists m, titles_loop titles mark = Ok m.
Proof.
  intros Hwf Hst Hall. revert mark Hwf Hst.
  induction Hall as [|[title|] rest Hne _ IH]; intros mark Hwf Hst; simpl;
    eauto.
  destruct Hst as [st Hstart]. rewrite Hstart.
  assert (Hst : is_Some (mark !! START)) by (rewrite Hstart; eauto).
  destruct (words_loop_previous_key (split title) mark START Hwf Hst
              (Hne title eq_refl)) as (m1 & p & Hloop).
  rewrite Hloop.
  destruct (words_loop_wf _ _ _ _ _ Hwf Hst Hloop) as (Hwf1 & [tbl Hp] & Hmono).
  rewrite (end_title_incr m1 p tbl Hp).
  apply IH.
  - eapply end_title_wf; [exact Hwf1 | apply end_title_incr, Hp].
  - apply lookup_insert_is_Some'. right. apply Hmono, Hst.
Qed.

(** The only exception that leaves the loops of the builder is the
    [KeyError] of line 142, on a token that is the string of [END]. *)
Lemma words_loop_raise (words : list string) (mark : gmap string table)
    (previous : string) (e : exn) :
  chain_wf mark -> is_Some (mark !! previous) ->
  words_loop words mark previous = Raise e ->
  e = KeyError END /\ END ∈ words.
Proof.
  revert mark previous.
  induction words as [|word rest IH]; intros mark previous Hwf Hprev; simpl.
  - discriminate.
  - destruct (String.eqb word EmptyString); [discriminate|].
    destruct Hprev as [tbl Hp]. rewrite Hp.
    destruct (note_word mark previous tbl word !! word) as [t|] eqn:Hword.
    + intros Hloop.
      assert (Hkey : is_Some (note_word mark previous tbl word !! word))
        by (rewrite Hword; eauto).
      destruct (IH _ _ (note_word_wf mark previous tbl word Hwf Hp Hkey)
                  Hkey Hloop) as [He Hin].
      split; [exact He | right; exact Hin].
    + intros [= <-].
      destruct (decide (word = END)) as [->|Hne]; [split; [reflexivity|left]|].
      pose proof (note_word_key mark previous tbl word Hwf Hp Hne) as [t Ht].
      congruence.
Qed.

Lemma titles_loop_raise (titles : list (option string))
    (mark : gmap string table) (e : exn) :
  chain_wf mark -> is_Some (mark !! START) ->
  titles_loop titles mark = Raise e -> e = KeyError END.
Proof.
  revert mark.
  induction titles as [|[title|] rest IH]; intros mark Hwf Hst; simpl;
    try discriminate.
  destruct Hst as [st Hstart]. rewrite Hstart.
  assert (Hst : is_Some (mark !! START)) by (rewrite Hstart; eauto).
  destruct (words_loop (split title) mark START) as [[m1 p]|e'] eqn:Hloop.
  - destruct (words_loop_wf _ _ _ _ _ Hwf Hst Hloop) as (Hwf1 & [tbl Hp] & Hmono).
    rewrite (end_title_incr m1 p tbl Hp).
    apply IH.
    + eapply end_title_wf; [exact Hwf1 | apply end_title_incr, Hp].
    + apply lookup_insert_is_Some'. right. apply Hmono, Hst.
  - intros [= <-]. eapply words_loop_raise; eassumption.
Qed.

(** The table of [START] after the titles: one count per title. *)
Lemma titles_loop_start (titles : list string) (mark m : gmap string table)
    (st : table) :
  Forall (fun title => START ∉ split title) titles ->
  mark !! START = Some st ->
  titles_loop (map Some titles) mark = Ok m ->
  m !! START
  = Some (foldl (fun acc title => table_incr (first_symbol title) acc) st titles).
Proof.
  intros Hall. revert mark st.
  induction Hall as [|title rest Hns _ IH]; intros mark st Hst; simpl.
  - intros [= <-]. exact Hst.
  - rewrite Hst.
    destruct (words_loop (split title) mark START) as [[m1 p]|e] eqn:Hloop;
      [|discriminate].
    destruct (end_title m1 p) as [m2|e] eqn:Hend; [|discriminate].
    apply IH. eapply title_start_table; eassumption.
Qed.

Lemma chain_wf_initial : chain_wf (<[START := []]> ∅).
Proof.
  intros s tbl w n Hs Hin.
  apply lookup_insert_Some in Hs as [[_ <-]|[_ Hs]].
  - apply elem_of_nil in Hin. contradiction.
  - rewrite lookup_empty in Hs. discriminate.
Qed.

(** ** The chain that [calculate_chain] returns *)

(** The progress bar of line 114 stops the builder on the empty input;
    on any other input the builder is its loop over the titles. *)
Lemma calculate_chain_nil : calculate_chain [] = Raise AssertionError.
Proof. reflexivity. Qed.

Lemma calculate_chain_loop (titles : list (option string)) :
  titles <> [] ->
  calculate_chain titles = titles_loop titles (<[START := []]> ∅).
Proof. destruct titles; [congruence | reflexivity]. Qed.

Lemma calculate_chain_Ok (titles : list (option string))
    (mark : gmap string table) :
  calculate_chain titles = Ok mark ->
  titles <> [] /\ titles_loop titles (<[START := []]> ∅) = Ok mark.
Proof. destruct titles; [discriminate | split; [discriminate | assumption]]. Qed.

Lemma titles_loop_break (before after : list (option string))
    (mark : gmap string table) :
  titles_loop (before ++ None :: after) mark = titles_loop before mark.
Proof.
  revert mark.
  induction before as [|[title|] rest IH]; intros mark; simpl; try reflexivity.
  destruct (mark !! START); [|reflexivity].
  destruct (words_loop (split title) mark START) as [[m1 p]|e]; [|reflexivity].
  destruct (end_title m1 p); [apply IH | reflexivity].
Qed.

(** The [break] of line 116 leaves the loop over the titles: what
    follows the first [None] is not read. *)
Lemma calculate_chain_break (before after : list (option string)) :
  before <> [] ->
  calculate_chain (before ++ None :: after) = calculate_chain before.
Proof.
  intros Hne. rewrite (calculate_chain_loop before Hne).
  rewrite calculate_chain_loop by (destruct before; [congruence | discriminate]).
  apply titles_loop_break.
Qed.

(** C1: a [None] entry is not skipped.  On the input [[None; "a"]] the
    builder returns the initial chain, which is not the chain of the
    input without its [None] entries. *)
Theorem calculate_chain_None_not_skipped :
  calculate_chain [None; Some "a"] = Ok {[ START := [] ]}
  /\ calculate_chain (without_None [None; Some "a"])
     = Ok (<["a" := [(END, 1)]]> {[ START := [("a", 1)] ]})
  /\ calculate_chain [None; Some "a"]
     <> calculate_chain (without_None [None; Some "a"]).
Proof.
  assert (H1 : calculate_chain [None; Some "a"] = Ok {[ START := [] ]})
    by (vm_compute; reflexivity).
  assert (H2 : calculate_chain (without_None [None; Some "a"])
               = Ok (<["a" := [(END, 1)]]> {[ START := [("a", 1)] ]}))
    by (vm_compute; reflexivity).
  split; [exact H1|]. split; [exact H2|].
  rewrite H1, H2. intros H.
  apply (f_equal (fun r : result (gmap string table) =>
                    match r with Ok m => m !! "a" | Raise _ => None end)) in H.
  vm_compute in H. discriminate.
Qed.

Lemma initial_START :
  is_Some ((<[START := []]> ∅ : gmap string table) !! START).
Proof. rewrite lookup_insert_eq. eauto. Qed.

Lemma calculate_chain_total (titles : list (option string)) :
  titles <> [] ->
  Forall (fun t => forall title, t = Some title -> END ∉ split title) titles ->
  exists mark, calculate_chain titles = Ok mark.
Proof.
  intros Hne. rewrite (calculate_chain_loop titles Hne).
  apply titles_loop_total; [apply chain_wf_initial | apply initial_START].
Qed.

Lemma calculate_chain_raise (titles : list (option string)) (e : exn) :
  titles <> [] -> calculate_chain titles = Raise e -> e = KeyError END.
Proof.
  intros Hne. rewrite (calculate_chain_loop titles Hne).
  apply titles_loop_raise; [apply chain_wf_initial | apply initial_START].
Qed.

Lemma calculate_chain_total_strings (titles : list string) :
  titles <> [] ->
  Forall (fun title => END ∉ split title) titles ->
  exists mark, calculate_chain (map Some titles) = Ok mark.
Proof.
  intros Hne Hend. apply calculate_chain_total.
  - destruct titles; [congruence | discriminate].
  - apply Forall_fmap. eapply Forall_impl; [exact Hend|].
    intros title H t [= <-]. exact H.
Qed.

(** C7: on the empty input [calculate_chain] does not return the chain
    with the empty table of [START]: the progress bar of line 114 raises
    its [AssertionError] before [mark] is returned.  On every other
    input, absent entries and empty tokens included, it returns a chain
    when no token is the string of the [END] symbol; and whenever it
    returns a chain, [START] is a key of it, every edge to a symbol other
    than [END] leads to a key of the chain, and every weight is an integer
    at least 1. *)
Theorem calculate_chain_invariants (titles : list (option string)) :
  calculate_chain [] = Raise AssertionError
  /\ (titles <> [] ->
      Forall (fun t => forall title, t = Some title -> END ∉ split title)
        titles ->
      exists mark, calculate_chain titles = Ok mark)
  /\ (forall mark, calculate_chain titles = Ok mark ->
        is_Some (mark !! START)
        /\ (forall (s : string) (tbl : table) (w : string) (n : Z),
              mark !! s = Some tbl -> (w, n) ∈ tbl ->
              (w <> END -> is_Some (mark !! w)) /\ 1 <= n)).
Proof.
  split; [reflexivity|]. split.
  - apply calculate_chain_total.
  - intros mark Hbuild. apply calculate_chain_Ok in Hbuild as [_ Hbuild].
    destruct (titles_loop_wf _ _ _ chain_wf_initial initial_START Hbuild)
      as [Hwf Hkey].
    split; [exact Hkey|].
    intros s tbl w n Hs Hin. destruct (Hwf s tbl w n Hs Hin). auto.
Qed.

Lemma foldl_incr_sum (titles : list string) (st : table) :
  sum_weights (foldl (fun acc title => table_incr (first_symbol title) acc)
                 st titles)
  = sum_weights st + Z.of_nat (length titles).
Proof.
  revert st. induction titles as [|title rest IH]; intros st; simpl.
  - lia.
  - rewrite IH, sum_weights_table_incr. lia.
Qed.

(** C4, amended: when no token is the string of the [START] symbol and
    no entry is absent, the weights in the table of [START] of the chain
    that [calculate_chain] returns add up to the number of titles; and it
    returns a chain whenever, in addition, there is at least one title
    and no token is the string of the [END] symbol. *)
Theorem start_weights_count (titles : list string) :
  Forall (fun title => START ∉ split title) titles ->
  (titles <> [] ->
   Forall (fun title => END ∉ split title) titles ->
   exists mark, calculate_chain (map Some titles) = Ok mark)
  /\ (forall mark, calculate_chain (map Some titles) = Ok mark ->
        exists st, mark !! START = Some st
                   /\ sum_weights st = Z.of_nat (length titles)).
Proof.
  intros Hns. split.
  - apply calculate_chain_total_strings.
  - intros mark Hbuild. apply calculate_chain_Ok in Hbuild as [_ Hbuild].
    eexists. split.
    + eapply titles_loop_start; [exact Hns | | exact Hbuild].
      apply lookup_insert_eq.
    + rewrite foldl_incr_sum, sum_weights_nil. lia.
Qed.

(** ** The [END] edge of [START] *)

Lemma Qle_bool_inject_Z (a b : Z) :
  Qle_bool (inject_Z a) (inject_Z b) = (a <=? b)%Z.
Proof. unfold Qle_bool, inject_Z. simpl. rewrite !Z.mul_1_r. reflexivity. Qed.

(** Every key of a table with positive weights is selected by some draw:
    the running sum at that key. *)
Lemma weighted_choice_loop_reaches (k : string) (t : table) (upto n : Z) :
  Forall (fun cw => 0 < snd cw) t ->
  table_get k t = Some n ->
  exists r : Z,
    upto < r <= upto + sum_weights t
    /\ weighted_choice_loop t upto (inject_Z r) = Ok k.
Proof.
  intros Hpos. revert upto.
  induction Hpos as [|[c w] rest Hw Hrest IH]; intros upto; simpl in *.
  - discriminate.
  - pose proof (sum_weights_nonneg rest Hrest) as Hsum.
    rewrite sum_weights_cons.
    destruct (String.eqb_spec k c) as [->|Hkc].
    + intros _. exists (upto + w). split; [lia|].
      rewrite Qle_bool_inject_Z, Z.leb_refl. reflexivity.
    + intros Hget. destruct (IH (upto + w) Hget) as (r & Hr & Hsel).
      exists r. split; [lia|].
      rewrite Qle_bool_inject_Z.
      destruct (Z.leb_spec r (upto + w)); [lia | exact Hsel].
Qed.

Lemma split_nonempty (s : string) : split s <> [].
Proof.
  destruct s as [|c rest]; simpl; [discriminate|].
  destruct (Ascii.eqb c " "); [discriminate|].
  destruct (split rest); discriminate.
Qed.

Lemma first_symbol_end (title : string) :
  END ∉ split title ->
  String.eqb END (first_symbol title) = empty_first title.
Proof.
  unfold first_symbol, empty_first. intros Hne.
  pose proof (split_nonempty title) as Hsplit.
  destruct (split title) as [|word rest]; [congruence|].
  apply not_elem_of_cons in Hne as [Hne _].
  destruct (String.eqb word EmptyString); [reflexivity|].
  apply String.eqb_neq. exact Hne.
Qed.

Lemma foldl_incr_end (titles : list string) (st : table) :
  Forall (fun title => END ∉ split title) titles ->
  table_get END
    (foldl (fun acc title => table_incr (first_symbol title) acc) st titles)
  = if (count_empty_first titles =? 0)%Z then table_get END st
    else Some (default 0 (table_get END st) + count_empty_first titles).
Proof.
  intros Hall. revert st. unfold count_empty_first.
  induction Hall as [|title rest Hne _ IH]; intros st; simpl.
  - reflexivity.
  - pose proof (first_symbol_end title Hne) as Hfs.
    rewrite IH, table_get_incr, Hfs.
    destruct (empty_first title) eqn:Hfirst; simpl; [|reflexivity].
    apply String.eqb_eq in Hfs. rewrite <- Hfs.
    destruct (Z.eqb_spec (Z.of_nat (length (List.filter empty_first rest))) 0)
      as [Hz|Hz];
      destruct (Z.eqb_spec
                  (Z.of_nat (S (length (List.filter empty_first rest)))) 0);
      try lia; simpl; f_equal; lia.
Qed.

(** C10, amended: when no entry is absent and no token is the string of
    the [START] or of the [END] symbol, and [k >= 1] titles have the
    empty string as their first token, [calculate_chain] returns a chain
    whose table of [START] has the [END] edge with weight [k]; and some
    draw in range makes the walk from [START] return the empty string in
    its first turn. *)
Theorem start_end_edge (titles : list string) (k : Z) :
  Forall (fun title => (START ∉ split title) /\ (END ∉ split title)) titles ->
  1 <= k ->
  count_empty_first titles = k ->
  exists mark st,
    calculate_chain (map Some titles) = Ok mark
    /\ mark !! START = Some st
    /\ table_get END st = Some k
    /\ exists r : Q,
         (0 <= r <= inject_Z (sum_weights st))%Q
         /\ forall (G : Type) (uniform : Z -> Z -> G -> Q * G)
                   (fuel : nat) (g : G),
              fst (uniform 0 (sum_weights st) g) = r ->
              fst (markov_randwalk uniform (S fuel) mark START g)
              = Some (Ok EmptyString).
Proof.
  intros Hplain Hk Hcount.
  assert (Hns : Forall (fun title => START ∉ split title) titles)
    by (eapply Forall_impl; [exact Hplain | intros ? []; assumption]).
  assert (Hne : Forall (fun title => END ∉ split title) titles)
    by (eapply Forall_impl; [exact Hplain | intros ? []; assumption]).
  assert (Hsome : titles <> [])
    by (intros ->; unfold count_empty_first in Hcount; simpl in Hcount; lia).
  destruct (calculate_chain_total_strings titles Hsome Hne) as [mark Hcalc].
  destruct (calculate_chain_Ok _ _ Hcalc) as [_ Hbuild].
  assert (Hinit : (<[START := []]> ∅ : gmap string table) !! START = Some [])
    by apply lookup_insert_eq.
  pose proof (titles_loop_start titles _ mark [] Hns Hinit Hbuild) as Hst.
  set (st := foldl (fun acc title => table_incr (first_symbol title) acc)
               [] titles) in Hst.
  assert (Hget : table_get END st = Some k).
  { unfold st. rewrite (foldl_incr_end titles [] Hne), Hcount. simpl.
    destruct (Z.eqb_spec k 0); [lia | f_equal; lia]. }
  assert (Hkey : is_Some ((<[START := []]> ∅ : gmap string table) !! START))
    by (exists []; exact Hinit).
  destruct (titles_loop_wf (map Some titles) _ mark chain_wf_initial
              Hkey Hbuild) as [Hwf _].
  assert (Hpos : Forall (fun cw => 0 < snd cw) st).
  { apply Forall_forall. intros [w n] Hin.
    destruct (Hwf START st w n Hst Hin) as [Hn _]. simpl. lia. }
  destruct (weighted_choice_loop_reaches END st 0 k Hpos Hget)
    as (r & Hr & Hsel).
  exists mark, st. split; [exact Hcalc|]. split; [exact Hst|].
  split; [exact Hget|].
  exists (inject_Z r). split.
  - split; [change 0%Q with (inject_Z 0)|]; rewrite <- Zle_Qle; lia.
  - intros G uniform fuel g Hdraw.
    unfold markov_randwalk. rewrite Hst. simpl.
    rewrite (surjective_pairing (weighted_choice uniform st g)).
    rewrite weighted_choice_fst, Hdraw, Hsel. reflexivity.
Qed.

(** ** Concrete runs *)

Lemma markov_randwalk_start_error_witness :
  fst (markov_randwalk uniform_top 3 godfather_chain "nope" tt)
  = Some (Raise (KeyError "nope")).
Proof.
  apply (proj2 (markov_randwalk_start_error uniform_top 3 godfather_chain
                  "nope" tt)).
  reflexivity.
Defined.

Lemma calculate_chain_invariants_witness :
  exists mark,
    calculate_chain [Some "the godfather"; None; Some "a  b"] = Ok mark
    /\ is_Some (mark !! START)
    /\ (forall (s : string) (tbl : table) (w : string) (n : Z),
          mark !! s = Some tbl -> (w, n) ∈ tbl ->
          (w <> END -> is_Some (mark !! w)) /\ 1 <= n).
Proof.
  destruct (calculate_chain_invariants
              [Some "the godfather"; None; Some "a  b"])
    as (_ & Htotal & Hinv).
  destruct Htotal as [mark Hbuild].
  - discriminate.
  - repeat constructor; intros title [= <-];
      apply (bool_decide_unpack _); vm_compute; exact I.
  - exists mark. destruct (Hinv mark Hbuild) as (Hkey & Hedges).
    split; [exact Hbuild|]. split; [exact Hkey | exact Hedges].
Defined.

Lemma start_weights_count_witness :
  exists mark st,
    calculate_chain (map Some ["the godfather"; "the end"; EmptyString]) = Ok mark
    /\ mark !! START = Some st
    /\ sum_weights st = 3.
Proof.
  destruct (start_weights_count ["the godfather"; "the end"; EmptyString])
    as [Htotal Hsum].
  - repeat constructor; apply (bool_decide_unpack _); vm_compute; exact I.
  - destruct Htotal as [mark Hbuild].
    + discriminate.
    + repeat constructor; apply (bool_decide_unpack _); vm_compute; exact I.
    + destruct (Hsum mark Hbuild) as (st & Hst & Hlen).
      exists mark, st. split; [exact Hbuild|]. split; [exact Hst | exact Hlen].
Defined.

(** The token ["_start_"] in second place is counted twice at [START]:
    once as the first word's successor table is left, once as the end of
    the title. *)
Lemma start_weights_counterexample :
  Forall (fun word => word <> EmptyString) (split "a _start_")
  /\ exists mark st,
       calculate_chain (map Some ["a _start_"]) = Ok mark
       /\ mark !! START = Some st
       /\ sum_weights st = 2
       /\ Z.of_nat (length ["a _start_"]) = 1.
Proof.
  split; [repeat constructor; discriminate|].
  exists (<["a" := [(START, 1)]]> {[ START := [("a", 1); (END, 1)] ]}),
    [("a", 1); (END, 1)].
  repeat split; vm_compute; reflexivity.
Qed.

Lemma start_end_edge_witness :
  exists mark st,
    calculate_chain (map Some [EmptyString; "the end"; " x"]) = Ok mark
    /\ mark !! START = Some st
    /\ table_get END st = Some 2
    /\ exists r : Q,
         (0 <= r <= inject_Z (sum_weights st))%Q
         /\ forall (G : Type) (uniform : Z -> Z -> G -> Q * G)
                   (fuel : nat) (g : G),
              fst (uniform 0 (sum_weights st) g) = r ->
              fst (markov_randwalk uniform (S fuel) mark START g)
              = Some (Ok EmptyString).
Proof.
  apply (start_end_edge [EmptyString; "the end"; " x"] 2).
  - repeat constructor; apply (bool_decide_unpack _); vm_compute; exact I.
  - lia.
  - reflexivity.
Defined.

(** The title ["_end_"] puts its first token under the key of the [END]
    edge of [START]: one title with an empty first token, weight 2. *)
Lemma start_end_edge_counterexample :
  count_empty_first ["_end_"; EmptyString] = 1
  /\ exists mark st,
       calculate_chain (map Some ["_end_"; EmptyString]) = Ok mark
       /\ mark !! START = Some st
       /\ table_get END st = Some 2.
Proof.
  split; [reflexivity|].
  exists (<[END := [(END, 1)]]> {[ START := [(END, 2)] ]}), [(END, 2)].
  repeat split; vm_compute; reflexivity.
Qed.

(** The builder raises when a token is the string of [END] and follows a
    symbol that already has its [END] edge. *)
Example calculate_chain_raises :
  calculate_chain [Some "a"; Some "a _end_"] = Raise (KeyError END).
Proof. vm_compute. reflexivity. Qed.

(** A run of the generator that hands out two titles, and a run that
    keeps drawing the seed. *)
Example titles_two :
  titles uniform_cycle 4 4
    (<["b" := [(END, 1)]]> (<["a" := [(END, 1)]]>
       {[ START := [("a", 1); ("b", 1)] ]}))
    START 2 O
  = (["a"; "b"], Taken).
Proof. vm_compute. reflexivity. Qed.

Example titles_seed_only :
  titles uniform_top 4 4 (<["a" := [(END, 1)]]> {[ START := [("a", 1)] ]})
    "a" 1 tt
  = ([], NoFuel).
Proof. vm_compute. reflexivity. Qed.

(** * Further properties *)

(** ** The scan of the sampler *)

Lemma Qle_bool_false (x y : Q) : Qle_bool x y = false <-> (y < x)%Q.
Proof.
  split.
  - intros H. apply Qnot_le_lt. intros Hle.
    apply Qle_bool_iff in Hle. congruence.
  - intros H. destruct (Qle_bool x y) eqn:E; [|reflexivity].
    apply Qle_bool_iff in E. apply Qlt_not_le in H. contradiction.
Qed.

Lemma weighted_choice_loop_member (choices : table) (upto : Z) (randval : Q)
    (c : string) :
  weighted_choice_loop choices upto randval = Ok c -> c ∈ map fst choices.
Proof.
  revert upto. induction choices as [|[a v] rest IH]; intros upto; simpl.
  - discriminate.
  - destruct (Qle_bool _ _).
    + intros [= ->]. left.
    + intros H. right. exact (IH _ H).
Qed.

(** The scan returns the item whose interval of running sums holds the
    draw. *)
Lemma weighted_choice_loop_interval (choices : table) (upto : Z)
    (randval : Q) (c : string) :
  Forall (fun cw => 0 < snd cw) choices ->
  weighted_choice_loop choices upto randval = Ok c
  <-> exists (pre : table) (w : Z) (post : table),
        choices = (pre ++ (c, w) :: post)%list
        /\ (pre = [] \/ (inject_Z (upto + sum_weights pre) < randval)%Q)
        /\ (randval <= inject_Z (upto + sum_weights pre + w))%Q.
Proof.
  intros Hpos. revert upto.
  induction Hpos as [|[a v] rest Hv Hrest IH]; intros upto; simpl in *.
  - split; [discriminate|].
    intros (pre & w & post & H & _). destruct pre; discriminate.
  - destruct (Qle_bool randval (inject_Z (upto + v))) eqn:Hcmp.
    + split.
      * intros [= ->]. exists [], v, rest.
        split; [reflexivity|]. split; [left; reflexivity|].
        rewrite sum_weights_nil, Z.add_0_r. apply Qle_bool_iff, Hcmp.
      * intros (pre & w & post & Heq & Hlow & Hhigh).
        destruct pre as [|[a' v'] pre'].
        -- injection Heq as -> -> _. reflexivity.
        -- injection Heq as -> -> Hrest'. exfalso.
           destruct Hlow as [?|Hlow]; [discriminate|].
           rewrite sum_weights_cons in Hlow.
           assert (Hpre : 0 <= sum_weights pre').
           { apply sum_weights_nonneg. rewrite Hrest' in Hrest.
             apply Forall_app in Hrest as [Hp _]. exact Hp. }
           apply Qle_bool_iff in Hcmp.
           apply (Qlt_not_le _ _ Hlow).
           eapply Qle_trans; [exact Hcmp|]. rewrite <- Zle_Qle. lia.
    + apply Qle_bool_false in Hcmp. rewrite (IH (upto + v)). split.
      * intros (pre & w & post & -> & Hlow & Hhigh).
        exists ((a, v) :: pre), w, post.
        split; [reflexivity|]. rewrite sum_weights_cons. split.
        -- right. destruct Hlow as [->|Hlow].
           ++ rewrite sum_weights_nil, Z.add_0_r. exact Hcmp.
           ++ rewrite Z.add_assoc. exact Hlow.
        -- rewrite Z.add_assoc. exact Hhigh.
      * intros (pre & w & post & Heq & Hlow & Hhigh).
        destruct pre as [|[a' v'] pre'].
        -- injection Heq as -> -> _. exfalso.
           rewrite sum_weights_nil, Z.add_0_r in Hhigh.
           exact (Qlt_not_le _ _ Hcmp Hhigh).
        -- injection Heq as -> -> ->.
           rewrite sum_weights_cons, Z.add_assoc in Hhigh.
           exists pre', w, post. split; [reflexivity|].
           split; [|exact Hhigh].
           destruct Hlow as [?|Hlow]; [discriminate|].
           right. rewrite sum_weights_cons, Z.add_assoc in Hlow. exact Hlow.
Qed.

(** The scan falls through to [assert False] exactly when the draw is
    above the sum of the weights. *)
Lemma weighted_choice_loop_falls (choices : table) (upto : Z) (randval : Q) :
  Forall (fun cw => 0 <= snd cw) choices ->
  choices <> [] ->
  weighted_choice_loop choices upto randval = Raise AssertionError
  <-> (inject_Z (upto + sum_weights choices) < randval)%Q.
Proof.
  intros Hpos. revert upto.
  induction Hpos as [|[a v] rest Hv Hrest IH]; intros upto Hne; simpl in *.
  - congruence.
  - rewrite sum_weights_cons.
    assert (Hsum : 0 <= sum_weights rest).
    { clear -Hrest. induction Hrest as [|[c w] l Hw _ IHl]; simpl in *.
      - rewrite sum_weights_nil. lia.
      - rewrite sum_weights_cons. lia. }
    destruct (Qle_bool randval (inject_Z (upto + v))) eqn:Hcmp.
    + split; [discriminate|]. intros Hlt. exfalso.
      apply Qle_bool_iff in Hcmp. apply (Qlt_not_le _ _ Hlt).
      eapply Qle_trans; [exact Hcmp|]. rewrite <- Zle_Qle. lia.
    + apply Qle_bool_false in Hcmp.
      destruct rest as [|p rest'].
      * simpl. rewrite sum_weights_nil, Z.add_0_r.
        split; [intros _; exact Hcmp | reflexivity].
      * rewrite (IH (upto + v)) by discriminate.
        rewrite Z.add_assoc. reflexivity.
Qed.

Section SamplerMore.
Context {G : Type}.
Variable uniform : Z -> Z -> G -> Q * G.

(** X1: with positive weights, [weighted_choice] returns the item [c]
    exactly when the draw lies in the interval of running sums of an
    occurrence of [c]: above the sum of the weights before it (no lower
    bound for the first pair) and at most that sum plus its own weight. *)
Theorem weighted_choice_interval (choices : table) (g : G) (c : string) :
  Forall (fun cw => 0 < snd cw) choices ->
  fst (weighted_choice uniform choices g) = Ok c
  <-> exists (pre : table) (w : Z) (post : table),
        choices = (pre ++ (c, w) :: post)%list
        /\ (pre = []
            \/ (inject_Z (sum_weights pre)
                < fst (uniform 0 (sum_weights choices) g))%Q)
        /\ (fst (uniform 0 (sum_weights choices) g)
            <= inject_Z (sum_weights pre + w))%Q.
Proof.
  intros Hpos. rewrite weighted_choice_fst.
  rewrite (weighted_choice_loop_interval choices 0 _ c Hpos).
  split; intros (pre & w & post & Heq & Hlow & Hhigh);
    exists pre, w, post; (split; [exact Heq|]);
    rewrite ?Z.add_0_l in *; split; assumption.
Qed.

(** X2: once [random.uniform] has returned its draw, the scan of
    [weighted_choice] reaches the [AssertionError] of [assert False] on
    the empty list whatever the draw, and on a non-empty list with
    non-negative weights exactly when the draw is above the total. *)
Theorem weighted_choice_assertion (choices : table) (g : G) :
  Forall (fun cw => 0 <= snd cw) choices ->
  (choices = [] -> fst (weighted_choice uniform choices g) = Raise AssertionError)
  /\ (choices <> [] ->
      (fst (weighted_choice uniform choices g) = Raise AssertionError
       <-> (inject_Z (sum_weights choices)
            < fst (uniform 0 (sum_weights choices) g))%Q)).
Proof.
  intros Hpos. rewrite weighted_choice_fst. split.
  - intros ->. reflexivity.
  - intros Hne.
    rewrite (weighted_choice_loop_falls choices 0 _ Hpos Hne), Z.add_0_l.
    reflexivity.
Qed.

End SamplerMore.

Lemma weighted_choice_interval_witness :
  fst (weighted_choice uniform_top [("a", 1); ("b", 3)] tt) = Ok "b".
Proof.
  apply (proj2 (weighted_choice_interval uniform_top [("a", 1); ("b", 3)] tt
                  "b" ltac:(repeat constructor))).
  exists [("a", 1)], 3, []. split; [reflexivity|].
  split; [right|]; vm_compute; congruence.
Defined.

Lemma weighted_choice_assertion_witness :
  fst (weighted_choice uniform_over [("a", 1); ("b", 3)] tt)
  = Raise AssertionError.
Proof.
  apply (proj2 (proj2 (weighted_choice_assertion uniform_over
                         [("a", 1); ("b", 3)] tt
                         ltac:(repeat constructor; simpl; lia))
                 ltac:(discriminate))).
  vm_compute. reflexivity.
Defined.

(** ** Walks as paths of the chain *)

Lemma prefix_append (a b : string) : String.prefix a (a ++ b) = true.
Proof.
  induction a as [|c a IH]; simpl.
  - destruct b; reflexivity.
  - destruct (ascii_dec c c); [exact IH | congruence].
Qed.

Lemma prefix_join (w : string) (ws : list string) :
  String.prefix w (join (w :: ws)) = true.
Proof.
  destruct ws as [|w' ws'].
  - assert (Hnil : w ++ EmptyString = w)
      by (clear; induction w as [|c w IH];
          [reflexivity
          | change (String c (w ++ EmptyString) = String c w); congruence]).
    pose proof (prefix_append w EmptyString) as Hpre.
    rewrite Hnil in Hpre. exact Hpre.
  - change (join (w :: w' :: ws')) with (w ++ " " ++ join (w' :: ws')).
    apply prefix_append.
Qed.

Section WalkMore.
Context {G : Type}.
Variable uniform : Z -> Z -> G -> Q * G.

Lemma weighted_choice_member (choices : table) (g : G) (c : string) :
  fst (weighted_choice uniform choices g) = Ok c -> c ∈ map fst choices.
Proof. rewrite weighted_choice_fst. apply weighted_choice_loop_member. Qed.

Lemma randwalk_loop_path (fuel : nat) (mark : gmap string table)
    (previous : table) (title : list string) (g : G) (s : string) :
  fst (randwalk_loop uniform fuel mark previous title g) = Some (Ok s) ->
  exists ws, s = join (title ++ ws) /\ walk_path mark previous ws.
Proof.
  revert previous title g.
  induction fuel as [|fuel IH]; intros previous title g; simpl.
  - discriminate.
  - destruct (weighted_choice uniform previous g) as [[newword|e] g'] eqn:Hwc;
      [|discriminate].
    assert (Hin : newword ∈ map fst previous)
      by (apply (weighted_choice_member previous g); rewrite Hwc; reflexivity).
    destruct (String.eqb_spec newword END) as [->|Hne].
    + simpl. intros [= <-]. exists []. rewrite app_nil_r. split; [reflexivity|].
      exact Hin.
    + destruct (mark !! newword) as [tbl|] eqn:Hnew; [|discriminate].
      intros Hrun. destruct (IH _ _ _ Hrun) as (ws & -> & Hpath).
      exists (newword :: ws). rewrite <- app_assoc. split; [reflexivity|].
      simpl. split; [exact Hne|]. split; [exact Hin|]. eauto.
Qed.

(** X3: a title returned by the walk is the join of the start word (left
    out for [START]) and of words along a path of the chain: each word is
    a successor in the table of the word before it, has its own table,
    and the last table has an [END] edge. *)
Theorem markov_randwalk_path (fuel : nat) (mark : gmap string table)
    (start : string) (g : G) (s : string) :
  fst (markov_randwalk uniform fuel mark start g) = Some (Ok s) ->
  exists (tbl : table) (ws : list string),
    mark !! start = Some tbl
    /\ s = join (title_start start ++ ws)
    /\ walk_path mark tbl ws.
Proof.
  unfold markov_randwalk, title_start.
  destruct (mark !! start) as [tbl|]; [|discriminate].
  intros Hrun. apply randwalk_loop_path in Hrun as (ws & Hs & Hpath).
  exists tbl, ws. auto.
Qed.

(** X4: a walk from a seed word other than [START] returns a title that
    begins with that word. *)
Theorem markov_randwalk_seed_first (fuel : nat) (mark : gmap string table)
    (start : string) (g : G) (s : string) :
  start <> START ->
  fst (markov_randwalk uniform fuel mark start g) = Some (Ok s) ->
  String.prefix start s = true
  /\ exists ws, s = join (start :: ws).
Proof.
  intros Hne Hrun. unfold markov_randwalk in Hrun.
  destruct (mark !! start) as [tbl|]; [|discriminate].
  apply String.eqb_neq in Hne. rewrite Hne in Hrun.
  apply randwalk_loop_path in Hrun as (ws & -> & _). simpl.
  split; [apply prefix_join | eauto].
Qed.

Lemma randwalk_loop_safe (mark : gmap string table) :
  chain_wf mark -> chain_live mark -> uniform_in_range uniform ->
  forall (fuel : nat) (s : string) (previous : table) (title : list string)
         (g : G) (e : exn),
    mark !! s = Some previous ->
    fst (randwalk_loop uniform fuel mark previous title g) <> Some (Raise e).
Proof.
  intros Hwf Hlive Hrange fuel.
  induction fuel as [|fuel IH]; intros s previous title g e Hs; simpl.
  - discriminate.
  - assert (Hpos : Forall (fun cw => 0 < snd cw) previous).
    { apply Forall_forall. intros [w n] Hin.
      destruct (Hwf s previous w n Hs Hin) as [Hn _]. simpl. lia. }
    destruct (weighted_choice_loop_selects previous 0
                (fst (uniform 0 (sum_weights previous) g)))
      as (c & Hc & Hin).
    { exact (Hlive s previous Hs). }
    { rewrite Z.add_0_l.
      apply Hrange, sum_weights_nonneg, Hpos. }
    rewrite <- weighted_choice_fst in Hc.
    destruct (weighted_choice uniform previous g) as [r g'] eqn:Hwc.
    simpl in Hc. subst r.
    destruct (String.eqb_spec c END) as [->|Hne]; [discriminate|].
    apply list_elem_of_fmap in Hin as ([c' n] & -> & Hin). simpl in *.
    destruct (Hwf s previous c' n Hs Hin) as [_ Hkey].
    destruct (Hkey Hne) as [tbl Htbl]. rewrite Htbl.
    apply (IH c' tbl _ _ _ Htbl).
Qed.

(** X6: on a chain whose edges have weight at least 1 and lead to keys,
    and in which no key has an empty table, a walk from a key with draws
    in range never raises: it returns a title or is still running. *)
Theorem markov_randwalk_safe (mark : gmap string table) (start : string)
    (fuel : nat) (g : G) (e : exn) :
  chain_wf mark -> chain_live mark -> uniform_in_range uniform ->
  is_Some (mark !! start) ->
  fst (markov_randwalk uniform fuel mark start g) <> Some (Raise e).
Proof.
  intros Hwf Hlive Hrange [tbl Hstart]. unfold markov_randwalk.
  rewrite Hstart. eapply randwalk_loop_safe; eassumption.
Qed.

End WalkMore.

(** ** The weights of the chain are counts of transitions *)

Lemma count_transitions_app (s w : string) (l1 l2 : list (string * string)) :
  count_transitions s w (l1 ++ l2)%list
  = count_transitions s w l1 + count_transitions s w l2.
Proof.
  induction l1 as [|[a b] rest IH]; simpl; [reflexivity|].
  rewrite IH. lia.
Qed.

Lemma count_transitions_nonneg (s w : string) (l : list (string * string)) :
  0 <= count_transitions s w l.
Proof.
  induction l as [|[a b] rest IH]; simpl; [lia|].
  destruct (String.eqb s a && String.eqb w b); lia.
Qed.

Lemma count_transitions_elem_of (s w : string) (l : list (string * string)) :
  (s, w) ∈ l -> 1 <= count_transitions s w l.
Proof.
  induction l as [|[a b] rest IH]; intros Hin.
  - apply elem_of_nil in Hin. contradiction.
  - simpl. pose proof (count_transitions_nonneg s w rest).
    apply elem_of_cons in Hin as [[= <- <-]|Hin].
    + rewrite !String.eqb_refl. simpl. lia.
    + specialize (IH Hin). destruct (String.eqb s a && String.eqb w b); lia.
Qed.

Lemma weight_insert (mark : gmap string table) (p s w : string) (tbl : table) :
  weight (<[p := tbl]> mark) s w
  = if String.eqb s p then default 0 (table_get w tbl) else weight mark s w.
Proof.
  unfold weight. destruct (String.eqb_spec s p) as [->|Hne].
  - rewrite lookup_insert_eq. reflexivity.
  - rewrite lookup_insert_ne by congruence. reflexivity.
Qed.

Lemma weight_table_incr (k w : string) (tbl : table) :
  default 0 (table_get w (table_incr k tbl))
  = default 0 (table_get w tbl) + (if String.eqb w k then 1 else 0).
Proof.
  rewrite table_get_incr. destruct (String.eqb_spec w k) as [->|Hne]; simpl; lia.
Qed.

(** Lines 131-140 add one to the weight of the edge from [previous] to
    [word] and change no other weight. *)
Lemma weight_note_word (mark : gmap string table) (previous : string)
    (tbl : table) (word s w : string) :
  mark !! previous = Some tbl ->
  weight (note_word mark previous tbl word) s w
  = weight mark s w
    + (if String.eqb s previous && String.eqb w word then 1 else 0).
Proof.
  intros Hp. unfold weight at 1.
  destruct (String.eqb_spec s previous) as [->|Hne]; simpl.
  - rewrite (note_word_previous mark previous tbl word Hp).
    rewrite weight_table_incr. unfold weight. rewrite Hp. reflexivity.
  - unfold weight.
    destruct (mark !! s) as [t|] eqn:Hms.
    + rewrite note_word_other, Hms by (congruence || rewrite Hms; eauto). lia.
    + destruct (note_word mark previous tbl word !! s) as [t'|] eqn:Hs; [|lia].
      apply note_word_shape in Hs as [[-> _]|[Hold| ->]];
        [congruence | congruence | simpl; lia].
Qed.

Lemma weight_end_title (mark mark' : gmap string table) (previous s w : string) :
  end_title mark previous = Ok mark' ->
  weight mark' s w
  = weight mark s w
    + (if String.eqb s previous && String.eqb w END then 1 else 0).
Proof.
  intros Hend.
  destruct (mark !! previous) as [tbl|] eqn:Hp;
    [|unfold end_title in Hend; rewrite Hp in Hend; discriminate].
  rewrite (end_title_incr mark previous tbl Hp) in Hend.
  injection Hend as <-. rewrite weight_insert.
  destruct (String.eqb_spec s previous) as [->|Hne]; simpl; [|lia].
  rewrite weight_table_incr. unfold weight. rewrite Hp. reflexivity.
Qed.

Lemma words_loop_processed (words : list string) (mark : gmap string table)
    (previous : string) :
  words_loop words mark previous = words_loop (processed words) mark previous.
Proof.
  revert mark previous.
  induction words as [|word rest IH]; intros mark previous; simpl;
    [reflexivity|].
  destruct (String.eqb word EmptyString) eqn:Hempty; [reflexivity|].
  simpl. rewrite Hempty.
  destruct (mark !! previous) as [tbl|]; [|reflexivity].
  destruct (note_word mark previous tbl word !! word); [apply IH | reflexivity].
Qed.

(** One title adds one to the weight of each of its transitions. *)
Lemma words_loop_weight (words : list string) (mark m m2 : gmap string table)
    (previous p s w : string) :
  words_loop words mark previous = Ok (m, p) ->
  end_title m p = Ok m2 ->
  weight m2 s w
  = weight mark s w
    + count_transitions s w (transitions previous (processed words)).
Proof.
  revert mark previous.
  induction words as [|word rest IH]; intros mark previous; simpl.
  - intros [= <- <-] Hend. rewrite (weight_end_title _ _ _ s w Hend). lia.
  - destruct (String.eqb word EmptyString).
    + intros [= <- <-] Hend. rewrite (weight_end_title _ _ _ s w Hend).
      simpl. lia.
    + destruct (mark !! previous) as [tbl|] eqn:Hp; [|discriminate].
      destruct (note_word mark previous tbl word !! word); [|discriminate].
      intros Hloop Hend. rewrite (IH _ _ Hloop Hend).
      rewrite (weight_note_word mark previous tbl word s w Hp). simpl. lia.
Qed.

Lemma titles_loop_weight (titles : list (option string))
    (mark m : gmap string table) (s w : string) :
  titles_loop titles mark = Ok m ->
  weight m s w = weight mark s w + count_transitions s w (all_transitions titles).
Proof.
  unfold all_transitions. revert mark.
  induction titles as [|[title|] rest IH]; intros mark; simpl;
    try (intros [= <-]; lia).
  destruct (mark !! START); [|discriminate].
  destruct (words_loop (split title) mark START) as [[m1 p]|e] eqn:Hloop;
    [|discriminate].
  destruct (end_title m1 p) as [m2|e] eqn:Hend; [|discriminate].
  intros Hrest. rewrite (IH _ Hrest), count_transitions_app.
  rewrite (words_loop_weight _ _ _ _ _ _ s w Hloop Hend). lia.
Qed.

Lemma weight_initial (s w : string) : weight (<[START := []]> ∅) s w = 0.
Proof.
  rewrite weight_insert. destruct (String.eqb s START); [reflexivity|].
  unfold weight. rewrite lookup_empty. reflexivity.
Qed.

Lemma calculate_chain_weight (titles : list (option string))
    (mark : gmap string table) (s w : string) :
  calculate_chain titles = Ok mark ->
  weight mark s w = count_transitions s w (all_transitions titles).
Proof.
  intros Hbuild. apply calculate_chain_Ok in Hbuild as [_ Hbuild].
  rewrite (titles_loop_weight _ _ _ s w Hbuild), weight_initial.
  lia.
Qed.

Lemma calculate_chain_wf (titles : list (option string))
    (mark : gmap string table) :
  calculate_chain titles = Ok mark -> chain_wf mark.
Proof.
  intros Hbuild. apply calculate_chain_Ok in Hbuild as [_ Hbuild].
  apply (titles_loop_wf titles _ mark chain_wf_initial); [|exact Hbuild].
  rewrite lookup_insert_eq. eauto.
Qed.

Lemma calculate_chain_edge (titles : list (option string))
    (mark : gmap string table) (s w : string) :
  calculate_chain titles = Ok mark ->
  edge mark s w
  = if (count_transitions s w (all_transitions titles) =? 0)%Z then None
    else Some (count_transitions s w (all_transitions titles)).
Proof.
  intros Hbuild.
  pose proof (calculate_chain_weight titles mark s w Hbuild) as Hweight.
  pose proof (calculate_chain_wf titles mark Hbuild) as Hwf.
  unfold weight, edge in *.
  destruct (mark !! s) as [tbl|] eqn:Hs.
  - destruct (table_get w tbl) as [n|] eqn:Hget; simpl in Hweight.
    + apply table_get_elem_of in Hget.
      destruct (Hwf s tbl w n Hs Hget) as [Hn _].
      rewrite <- Hweight. destruct (Z.eqb_spec n 0); [lia | reflexivity].
    + rewrite <- Hweight. reflexivity.
  - rewrite <- Hweight. reflexivity.
Qed.

(** X5: in the chain that [calculate_chain] returns, the edge from [s]
    to [w] exists exactly when [w] follows [s] somewhere in the titles
    read (the first word follows [START], [END] follows the last word
    read), and its weight is the number of times it does. *)
Theorem edge_weights_are_counts (titles : list (option string))
    (mark : gmap string table) (s w : string) :
  calculate_chain titles = Ok mark ->
  edge mark s w
  = if (count_transitions s w (all_transitions titles) =? 0)%Z then None
    else Some (count_transitions s w (all_transitions titles)).
Proof. apply calculate_chain_edge. Qed.

(** ** The keys of the chain are the words read *)

Lemma note_word_keys (mark : gmap string table) (previous : string)
    (tbl : table) (word k : string) :
  mark !! previous = Some tbl ->
  is_Some (note_word mark previous tbl word !! k) ->
  is_Some (mark !! k) \/ k = word.
Proof.
  intros Hp. unfold note_word.
  assert (Hins : forall t, is_Some (<[previous := t]> mark !! k) ->
                           is_Some (mark !! k)).
  { intros t Hk. apply lookup_insert_is_Some in Hk as [<-|[_ Hk]];
      [rewrite Hp; eauto | exact Hk]. }
  destruct (table_get word tbl) as [n|].
  - intros Hk. left. exact (Hins _ Hk).
  - destruct (<[previous:=table_set word 1 tbl]> mark !! word).
    + intros Hk. left. exact (Hins _ Hk).
    + intros Hk. apply lookup_insert_is_Some in Hk as [<-|[_ Hk]];
        [right; reflexivity | left; exact (Hins _ Hk)].
Qed.

Lemma words_loop_keys (words : list string) (mark m : gmap string table)
    (previous p k : string) :
  words_loop words mark previous = Ok (m, p) ->
  is_Some (m !! k) <-> is_Some (mark !! k) \/ k ∈ processed words.
Proof.
  revert mark previous.
  induction words as [|word rest IH]; intros mark previous; simpl.
  - intros [= <- <-]. rewrite elem_of_nil. tauto.
  - destruct (String.eqb word EmptyString).
    + intros [= <- <-]. rewrite elem_of_nil. tauto.
    + destruct (mark !! previous) as [tbl|] eqn:Hp; [|discriminate].
      destruct (note_word mark previous tbl word !! word) as [t|] eqn:Hword;
        [|discriminate].
      intros Hloop. rewrite (IH _ _ Hloop), elem_of_cons. split.
      * intros [Hk|Hk]; [|tauto].
        destruct (note_word_keys _ _ _ _ _ Hp Hk); tauto.
      * intros [Hk|[->|Hk]]; [| |tauto].
        -- left. apply note_word_mono, Hk.
        -- left. rewrite Hword. eauto.
Qed.

Lemma end_title_keys (mark mark' : gmap string table) (previous k : string) :
  end_title mark previous = Ok mark' ->
  is_Some (mark' !! k) <-> is_Some (mark !! k).
Proof.
  intros Hend.
  destruct (mark !! previous) as [tbl|] eqn:Hp;
    [|unfold end_title in Hend; rewrite Hp in Hend; discriminate].
  rewrite (end_title_incr mark previous tbl Hp) in Hend.
  injection Hend as <-. rewrite lookup_insert_is_Some. split.
  - intros [<-|[_ Hk]]; [rewrite Hp; eauto | exact Hk].
  - intros Hk. destruct (decide (previous = k)); [left | right]; auto.
Qed.

Lemma titles_loop_keys (titles : list (option string))
    (mark m : gmap string table) (k : string) :
  titles_loop titles mark = Ok m ->
  is_Some (m !! k)
  <-> is_Some (mark !! k)
      \/ exists title, title ∈ read_titles titles
                       /\ k ∈ processed (split title).
Proof.
  revert mark.
  induction titles as [|[title|] rest IH]; intros mark; simpl.
  - intros [= <-]. split; [auto|]. intros [H|(t & Ht & _)]; [exact H|].
    apply elem_of_nil in Ht. contradiction.
  - destruct (mark !! START) as [st|]; [|discriminate].
    destruct (words_loop (split title) mark START) as [[m1 p]|e] eqn:Hloop;
      [|discriminate].
    destruct (end_title m1 p) as [m2|e] eqn:Hend; [|discriminate].
    intros Hrest.
    rewrite (IH _ Hrest), (end_title_keys _ _ _ k Hend),
      (words_loop_keys _ _ _ _ _ k Hloop).
    split.
    + intros [[Hk|Hk]|(t & Ht & Hk)]; [tauto | |].
      * right. exists title. split; [left | exact Hk].
      * right. exists t. split; [right; exact Ht | exact Hk].
    + intros [Hk|(t & Ht & Hk)]; [tauto|].
      apply elem_of_cons in Ht as [->|Ht]; [tauto|].
      right. exists t. auto.
  - intros [= <-]. split; [auto|]. intros [H|(t & Ht & _)]; [exact H|].
    apply elem_of_nil in Ht. contradiction.
Qed.

Lemma calculate_chain_keys (titles : list (option string))
    (mark : gmap string table) (s : string) :
  calculate_chain titles = Ok mark ->
  is_Some (mark !! s)
  <-> s = START
      \/ exists title, title ∈ read_titles titles
                       /\ s ∈ processed (split title).
Proof.
  intros Hbuild. apply calculate_chain_Ok in Hbuild as [_ Hbuild].
  rewrite (titles_loop_keys _ _ _ s Hbuild).
  rewrite lookup_insert_is_Some, lookup_empty.
  split; intros [H|H]; auto.
  - destruct H as [<-|[_ [? [=]]]]. auto.
Qed.

(** X7: the keys of the chain that [calculate_chain] returns are [START]
    and the words read: the tokens, before the first empty token, of the
    titles before the first [None]. *)
Theorem chain_keys_are_words (titles : list (option string))
    (mark : gmap string table) (s : string) :
  calculate_chain titles = Ok mark ->
  is_Some (mark !! s)
  <-> s = START
      \/ exists title, title ∈ read_titles titles
                       /\ s ∈ processed (split title).
Proof. apply calculate_chain_keys. Qed.

Lemma transitions_first (previous : string) (words : list string) :
  exists x, (previous, x) ∈ transitions previous words.
Proof. destruct words as [|w rest]; simpl; eexists; left. Qed.

Lemma transitions_successor (previous s : string) (words : list string) :
  s ∈ words -> exists x, (s, x) ∈ transitions previous words.
Proof.
  revert previous. induction words as [|w rest IH]; intros previous Hin.
  - apply elem_of_nil in Hin. contradiction.
  - apply elem_of_cons in Hin as [->|Hin]; simpl.
    + destruct (transitions_first w rest) as [x Hx]. exists x. right. exact Hx.
    + destruct (IH w Hin) as [x Hx]. exists x. right. exact Hx.
Qed.

Lemma elem_of_all_transitions (titles : list (option string)) (title : string)
    (pair : string * string) :
  title ∈ read_titles titles ->
  pair ∈ transitions START (processed (split title)) ->
  pair ∈ all_transitions titles.
Proof.
  intros Ht Hp. unfold all_transitions.
  apply list_elem_of_In, in_flat_map. exists title.
  split; apply list_elem_of_In; assumption.
Qed.

Lemma calculate_chain_table_nonempty (titles : list (option string))
    (mark : gmap string table) (s : string) (tbl : table) :
  calculate_chain titles = Ok mark ->
  mark !! s = Some tbl ->
  s <> START \/ read_titles titles <> [] ->
  tbl <> [].
Proof.
  intros Hbuild Hs Hcase.
  assert (Hout : exists x, (s, x) ∈ all_transitions titles).
  { destruct (decide (s = START)) as [->|Hne].
    - destruct Hcase as [?|Hread]; [congruence|].
      destruct (read_titles titles) as [|title rest] eqn:Hr; [congruence|].
      destruct (transitions_first START (processed (split title))) as [x Hx].
      exists x. apply (elem_of_all_transitions titles title); [|exact Hx].
      rewrite Hr. left.
    - assert (Hk : is_Some (mark !! s)) by (rewrite Hs; eauto).
      apply (calculate_chain_keys titles mark s Hbuild) in Hk
        as [?|(title & Ht & Hin)]; [congruence|].
      destruct (transitions_successor START s _ Hin) as [x Hx].
      exists x. apply (elem_of_all_transitions titles title); assumption. }
  destruct Hout as [x Hx]. apply count_transitions_elem_of in Hx.
  pose proof (calculate_chain_edge titles mark s x Hbuild) as Hedge.
  unfold edge in Hedge. rewrite Hs in Hedge.
  destruct (Z.eqb_spec (count_transitions s x (all_transitions titles)) 0);
    [lia|].
  intros ->. discriminate.
Qed.

Lemma calculate_chain_unread (titles : list (option string)) :
  titles <> [] -> read_titles titles = [] ->
  calculate_chain titles = Ok {[ START := [] ]}.
Proof.
  destruct titles as [|[title|] rest]; simpl; [congruence|discriminate|].
  intros _ _. reflexivity.
Qed.

(** X8: in the chain that [calculate_chain] returns no key other than
    [START] has an empty table, and [START] has one only when no title was
    read ([None] first); the chain is then the initial one. *)
Theorem chain_tables_nonempty (titles : list (option string))
    (mark : gmap string table) :
  calculate_chain titles = Ok mark ->
  (forall s tbl, mark !! s = Some tbl -> s <> START -> tbl <> [])
  /\ (read_titles titles <> [] -> chain_live mark)
  /\ (read_titles titles = [] -> mark = {[ START := [] ]}).
Proof.
  intros Hbuild. split; [|split].
  - intros s tbl Hs Hne.
    apply (calculate_chain_table_nonempty titles mark s tbl Hbuild Hs). auto.
  - intros Hread s tbl Hs.
    apply (calculate_chain_table_nonempty titles mark s tbl Hbuild Hs). auto.
  - intros Hread.
    destruct (calculate_chain_Ok titles mark Hbuild) as [Hsome _].
    rewrite (calculate_chain_unread titles Hsome Hread) in Hbuild.
    congruence.
Qed.

(** ** What the builder reads, and in which order *)

Lemma read_titles_Some (titles : list string) :
  read_titles (map Some titles) = titles.
Proof. induction titles as [|t rest IH]; simpl; congruence. Qed.

Lemma titles_loop_read (titles : list (option string))
    (mark : gmap string table) :
  titles_loop titles mark = titles_loop (map Some (read_titles titles)) mark.
Proof.
  revert mark. induction titles as [|[title|] rest IH]; intros mark; simpl;
    try reflexivity.
  destruct (mark !! START); [|reflexivity].
  destruct (words_loop (split title) mark START) as [[m1 p]|e]; [|reflexivity].
  destruct (end_title m1 p); [apply IH | reflexivity].
Qed.

(** X10: [calculate_chain] reads its input up to the first [None] only:
    when a title comes before it, the result is that of the titles before
    it, whatever comes after; when [None] comes first, the result is the
    chain with the empty table of [START] only. *)
Theorem calculate_chain_reads_until_None (titles : list (option string)) :
  (read_titles titles <> [] ->
   calculate_chain titles = calculate_chain (map Some (read_titles titles)))
  /\ (titles <> [] -> read_titles titles = [] ->
      calculate_chain titles = Ok {[ START := [] ]}).
Proof.
  split.
  - intros Hread.
    rewrite !calculate_chain_loop.
    + apply titles_loop_read.
    + destruct (read_titles titles); [congruence | discriminate].
    + intros ->. apply Hread. reflexivity.
  - apply calculate_chain_unread.
Qed.

Lemma calculate_chain_reads_until_None_witness :
  calculate_chain [Some "jaws"; None; Some "alien"]
  = calculate_chain (map Some (read_titles [Some "jaws"; None; Some "alien"])).
Proof.
  apply (proj1 (calculate_chain_reads_until_None
                  [Some "jaws"; None; Some "alien"])).
  discriminate.
Defined.

Lemma titles_loop_tokens (l1 l2 : list string) (mark : gmap string table) :
  map (fun title => processed (split title)) l1
  = map (fun title => processed (split title)) l2 ->
  titles_loop (map Some l1) mark = titles_loop (map Some l2) mark.
Proof.
  revert l2 mark. induction l1 as [|t1 r1 IH]; intros [|t2 r2] mark; simpl;
    try discriminate; [reflexivity|].
  intros [= Htok Hrest].
  destruct (mark !! START); [|reflexivity].
  rewrite (words_loop_processed (split t1)), (words_loop_processed (split t2)).
  rewrite Htok.
  destruct (words_loop (processed (split t2)) mark START) as [[m1 p]|e];
    [|reflexivity].
  destruct (end_title m1 p); [apply IH, Hrest | reflexivity].
Qed.

(** X12: the result of [calculate_chain] depends only on whether its
    input is empty and on the tokens it gets to: two inputs, both empty
    or both not, whose titles before the first [None] have the same
    tokens before their first empty token give the same result. What
    follows a double space, or a leading space, in a title is ignored. *)
Theorem calculate_chain_tokens_read (titles1 titles2 : list (option string)) :
  (titles1 = [] <-> titles2 = []) ->
  map (fun title => processed (split title)) (read_titles titles1)
  = map (fun title => processed (split title)) (read_titles titles2) ->
  calculate_chain titles1 = calculate_chain titles2.
Proof.
  intros Hboth Htok.
  destruct (decide (titles1 = [])) as [H1|H1].
  - rewrite H1, (proj1 Hboth H1). reflexivity.
  - assert (H2 : titles2 <> []) by tauto.
    rewrite (calculate_chain_loop titles1 H1), (calculate_chain_loop titles2 H2).
    rewrite (titles_loop_read titles1), (titles_loop_read titles2).
    apply titles_loop_tokens, Htok.
Qed.

Lemma calculate_chain_tokens_read_witness :
  calculate_chain [Some "the  lost weekend"; None; Some "jaws"]
  = calculate_chain [Some "the"].
Proof.
  apply (calculate_chain_tokens_read
           [Some "the  lost weekend"; None; Some "jaws"] [Some "the"]).
  - split; discriminate.
  - reflexivity.
Defined.

Lemma words_loop_raise_processed (words : list string)
    (mark : gmap string table) (previous : string) (e : exn) :
  chain_wf mark -> is_Some (mark !! previous) ->
  words_loop words mark previous = Raise e ->
  e = KeyError END /\ END ∈ processed words.
Proof.
  intros Hwf Hprev. rewrite words_loop_processed.
  apply words_loop_raise; assumption.
Qed.

Lemma titles_loop_raise_token (titles : list (option string))
    (mark : gmap string table) (e : exn) :
  chain_wf mark -> is_Some (mark !! START) ->
  titles_loop titles mark = Raise e ->
  exists title, title ∈ read_titles titles /\ END ∈ processed (split title).
Proof.
  revert mark.
  induction titles as [|[title|] rest IH]; intros mark Hwf Hst; simpl;
    try discriminate.
  destruct Hst as [st Hstart]. rewrite Hstart.
  assert (Hst : is_Some (mark !! START)) by (rewrite Hstart; eauto).
  destruct (words_loop (split title) mark START) as [[m1 p]|e'] eqn:Hloop.
  - destruct (words_loop_wf _ _ _ _ _ Hwf Hst Hloop) as (Hwf1 & [tbl Hp] & Hmono).
    rewrite (end_title_incr m1 p tbl Hp). intros Hrest.
    destruct (IH (<[p:=table_incr END tbl]> m1)) as (t & Ht & Hin).
    + eapply end_title_wf; [exact Hwf1 | apply end_title_incr, Hp].
    + apply lookup_insert_is_Some'. right. apply Hmono, Hst.
    + exact Hrest.
    + exists t. split; [right; exact Ht | exact Hin].
  - intros _. exists title. split; [left|].
    eapply words_loop_raise_processed; eassumption.
Qed.

(** X11: [calculate_chain] raises two exceptions only.  On the empty
    input, and on no other, it raises the [AssertionError] of the
    progress bar of line 114.  On any other input the one exception is
    the [KeyError] of the string ['_end_'] (line 142), raised only when
    that string is a token it reads in some title. *)
Theorem calculate_chain_only_error (titles : list (option string)) (e : exn) :
  calculate_chain [] = Raise AssertionError
  /\ (calculate_chain titles = Raise e ->
      (titles = [] /\ e = AssertionError)
      \/ (titles <> []
          /\ e = KeyError END
          /\ exists title,
               title ∈ read_titles titles /\ END ∈ processed (split title))).
Proof.
  split; [reflexivity|].
  intros Hraise. destruct (decide (titles = [])) as [->|Hne].
  - left. split; [reflexivity|].
    rewrite calculate_chain_nil in Hraise. congruence.
  - right. split; [exact Hne|]. split.
    + exact (calculate_chain_raise titles e Hne Hraise).
    + rewrite (calculate_chain_loop titles Hne) in Hraise.
      apply (titles_loop_raise_token titles _ e chain_wf_initial);
        [apply initial_START | exact Hraise].
Qed.

Lemma calculate_chain_only_error_witness :
  ([Some "a"; Some "a _end_"] = [] /\ KeyError END = AssertionError)
  \/ ([Some "a"; Some "a _end_"] <> []
      /\ KeyError END = KeyError END
      /\ exists title,
           title ∈ read_titles [Some "a"; Some "a _end_"]
           /\ END ∈ processed (split title)).
Proof.
  apply (proj2 (calculate_chain_only_error [Some "a"; Some "a _end_"]
                  (KeyError END))).
  vm_compute. reflexivity.
Defined.

Lemma count_transitions_perm (s w : string) (l1 l2 : list (string * string)) :
  Permutation l1 l2 -> count_transitions s w l1 = count_transitions s w l2.
Proof.
  induction 1 as [|[a b] l l' _ IH|[a b] [c d] l|l l' l'' _ IH1 _ IH2]; simpl;
    lia.
Qed.

Lemma all_transitions_perm (titles1 titles2 : list string) :
  Permutation titles1 titles2 ->
  Permutation (all_transitions (map Some titles1))
              (all_transitions (map Some titles2)).
Proof.
  intros Hperm. unfold all_transitions. rewrite !read_titles_Some.
  apply Permutation_flat_map, Hperm.
Qed.

Lemma calculate_chain_perm (titles1 titles2 : list string)
    (mark1 mark2 : gmap string table) (s w : string) :
  Permutation titles1 titles2 ->
  calculate_chain (map Some titles1) = Ok mark1 ->
  calculate_chain (map Some titles2) = Ok mark2 ->
  (is_Some (mark1 !! s) <-> is_Some (mark2 !! s))
  /\ edge mark1 s w = edge mark2 s w.
Proof.
  intros Hperm H1 H2. split.
  - rewrite (calculate_chain_keys _ _ s H1), (calculate_chain_keys _ _ s H2).
    rewrite !read_titles_Some.
    split; intros [->|(t & Ht & Hin)]; auto; right; exists t;
      (split; [|exact Hin]).
    + rewrite <- Hperm. exact Ht.
    + rewrite Hperm. exact Ht.
  - rewrite (calculate_chain_edge _ _ s w H1), (calculate_chain_edge _ _ s w H2).
    rewrite (count_transitions_perm s w _ _ (all_transitions_perm _ _ Hperm)).
    reflexivity.
Qed.

(** X9: the order of the titles does not matter to the chain: two
    inputs without [None] that are permutations of each other give chains
    with the same keys and the same edges with the same weights (the
    tables may list their edges in a different order). *)
Theorem calculate_chain_order (titles1 titles2 : list string)
    (mark1 mark2 : gmap string table) :
  Permutation titles1 titles2 ->
  calculate_chain (map Some titles1) = Ok mark1 ->
  calculate_chain (map Some titles2) = Ok mark2 ->
  forall s w,
    (is_Some (mark1 !! s) <-> is_Some (mark2 !! s))
    /\ edge mark1 s w = edge mark2 s w.
Proof.
  intros Hperm H1 H2 s w. eapply calculate_chain_perm; eassumption.
Qed.

Lemma calculate_chain_order_witness :
  let mark1 : gmap string table :=
    <["b" := [(END, 1)]]> (<["a" := [(END, 1)]]>
      {[ START := [("a", 1); ("b", 1)] ]}) in
  let mark2 : gmap string table :=
    <["a" := [(END, 1)]]> (<["b" := [(END, 1)]]>
      {[ START := [("b", 1); ("a", 1)] ]}) in
  (is_Some (mark1 !! START) <-> is_Some (mark2 !! START))
  /\ edge mark1 START "b" = edge mark2 START "b".
Proof.
  intros mark1 mark2.
  apply (calculate_chain_order ["a"; "b"] ["b"; "a"] mark1 mark2).
  - apply perm_swap.
  - vm_compute. reflexivity.
  - vm_compute. reflexivity.
Defined.

(** ** Building, then walking *)

Section Pipeline.
Context {G : Type}.
Variable uniform : Z -> Z -> G -> Q * G.

(** X13: on a chain that [calculate_chain] returned after reading at
    least one title, a walk from any key with draws in range never
    raises: neither [KeyError] nor [AssertionError]. *)
Theorem built_chain_walk_safe (titles : list (option string))
    (mark : gmap string table) (start : string) (fuel : nat) (g : G)
    (e : exn) :
  calculate_chain titles = Ok mark ->
  read_titles titles <> [] ->
  uniform_in_range uniform ->
  is_Some (mark !! start) ->
  fst (markov_randwalk uniform fuel mark start g) <> Some (Raise e).
Proof.
  intros Hbuild Hread Hrange [tbl Hstart]. unfold markov_randwalk.
  rewrite Hstart.
  apply (randwalk_loop_safe uniform mark) with (s := start);
    [|
     |exact Hrange|exact Hstart].
  - exact (calculate_chain_wf titles mark Hbuild).
  - intros s t Hs.
    apply (calculate_chain_table_nonempty titles mark s t Hbuild Hs). auto.
Qed.

Lemma titles_from_walks (rounds fuel : nat) (mark : gmap string table)
    (seed : string) (uniq : gset string) (n : nat) (g : G) (x : string) :
  x ∈ fst (titles_from uniform rounds fuel mark seed uniq n g) ->
  exists g0, fst (markov_randwalk uniform fuel mark seed g0) = Some (Ok x).
Proof.
  revert uniq n g.
  induction rounds as [|rounds IH]; intros uniq n g; destruct n as [|n];
    simpl; try (intros H; apply elem_of_nil in H; contradiction).
  destruct (markov_randwalk uniform fuel mark seed g) as [[[title|e]|] g']
    eqn:Hwalk; simpl;
    try (intros H; apply elem_of_nil in H; contradiction).
  destruct (bool_decide (title = seed) || bool_decide (title ∈ uniq)).
  - apply IH.
  - specialize (IH ({[title]} ∪ uniq) n g').
    destruct (titles_from uniform rounds fuel mark seed ({[title]} ∪ uniq) n g')
      as [more why]; simpl in *.
    intros Hin. apply elem_of_cons in Hin as [->|Hin]; [|exact (IH Hin)].
    exists g. rewrite Hwalk. reflexivity.
Qed.

Lemma titles_from_raised (rounds fuel : nat) (mark : gmap string table)
    (seed : string) (uniq : gset string) (n : nat) (g : G) (e : exn) :
  snd (titles_from uniform rounds fuel mark seed uniq n g) = Raised e ->
  exists g0, fst (markov_randwalk uniform fuel mark seed g0) = Some (Raise e).
Proof.
  revert uniq n g.
  induction rounds as [|rounds IH]; intros uniq n g; destruct n as [|n];
    simpl; try discriminate.
  destruct (markov_randwalk uniform fuel mark seed g) as [[[title|e']|] g']
    eqn:Hwalk; simpl; try discriminate.
  - destruct (bool_decide (title = seed) || bool_decide (title ∈ uniq)).
    + apply IH.
    + specialize (IH ({[title]} ∪ uniq) n g').
      destruct (titles_from uniform rounds fuel mark seed ({[title]} ∪ uniq) n g')
        as [more why]; simpl in *. exact IH.
  - intros [= ->]. exists g. rewrite Hwalk. reflexivity.
Qed.

(** X15: every title that the generator [titles] hands out is the join
    of the seed word (left out for [START]) and of the words of a path of
    the chain that ends on an [END] edge. *)
Theorem titles_are_paths (rounds fuel : nat) (mark : gmap string table)
    (seed : string) (n : nat) (g : G) (x : string) :
  x ∈ fst (titles uniform rounds fuel mark seed n g) ->
  exists (tbl : table) (ws : list string),
    mark !! seed = Some tbl
    /\ x = join (title_start seed ++ ws)
    /\ walk_path mark tbl ws.
Proof.
  intros Hin. apply titles_from_walks in Hin as [g0 Hwalk].
  unfold markov_randwalk in Hwalk.
  destruct (mark !! seed) as [tbl|]; [|discriminate].
  apply randwalk_loop_path in Hwalk as (ws & Hx & Hpath).
  exists tbl, ws. auto.
Qed.

(** X16: over a chain that [calculate_chain] returned after reading at
    least one title, the generator [titles] with a seed that is a key and
    draws in range never dies of an exception. *)
Theorem built_chain_titles_safe (titles_in : list (option string))
    (mark : gmap string table) (seed : string) (rounds fuel n : nat) (g : G)
    (e : exn) :
  calculate_chain titles_in = Ok mark ->
  read_titles titles_in <> [] ->
  uniform_in_range uniform ->
  is_Some (mark !! seed) ->
  snd (titles uniform rounds fuel mark seed n g) <> Raised e.
Proof.
  intros Hbuild Hread Hrange [tbl Hseed] Hraised.
  apply titles_from_raised in Hraised as [g0 Hwalk].
  unfold markov_randwalk in Hwalk. rewrite Hseed in Hwalk.
  revert Hwalk.
  apply (randwalk_loop_safe uniform mark) with (s := seed);
    [|
     |exact Hrange|exact Hseed].
  - exact (calculate_chain_wf titles_in mark Hbuild).
  - intros s t Hs.
    apply (calculate_chain_table_nonempty titles_in mark s t Hbuild Hs). auto.
Qed.

Lemma markov_randwalk_seed_alone (fuel : nat) (mark : gmap string table)
    (seed : string) (k : Z) (g : G) :
  mark !! seed = Some ([(END, k)] : table) ->
  seed <> START ->
  0 <= k ->
  uniform_in_range uniform ->
  fst (markov_randwalk uniform fuel mark seed g)
  = match fuel with O => None | S _ => Some (Ok seed) end.
Proof.
  intros Hseed Hne Hk Hrange. unfold markov_randwalk. rewrite Hseed.
  apply String.eqb_neq in Hne. rewrite Hne.
  destruct fuel as [|fuel]; [reflexivity|].
  cbn [randwalk_loop].
  rewrite (weighted_choice_forced uniform END k g Hrange Hk).
  rewrite String.eqb_refl. reflexivity.
Qed.

(** X17: with a seed word whose table has the [END] edge only, every
    walk returns the seed itself, which the generator discards: it never
    hands out a title, however long it runs. *)
Theorem titles_seed_alone (rounds fuel : nat) (mark : gmap string table)
    (seed : string) (k : Z) (n : nat) (g : G) :
  mark !! seed = Some ([(END, k)] : table) ->
  seed <> START ->
  0 <= k ->
  uniform_in_range uniform ->
  fst (titles uniform rounds fuel mark seed n g) = []
  /\ (n <> O -> snd (titles uniform rounds fuel mark seed n g) = NoFuel).
Proof.
  intros Hseed Hne Hk Hrange. unfold titles. generalize (∅ : gset string).
  revert g. induction rounds as [|rounds IH]; intros g uniq;
    destruct n as [|n]; simpl; try (split; [reflexivity | congruence]).
  pose proof (markov_randwalk_seed_alone fuel mark seed k g
                Hseed Hne Hk Hrange) as Hwalk.
  destruct (markov_randwalk uniform fuel mark seed g) as [o g'].
  simpl in Hwalk. subst o.
  destruct fuel as [|fuel]; simpl; [split; [reflexivity | congruence]|].
  rewrite bool_decide_eq_true_2 by reflexivity. simpl.
  apply IH.
Qed.

(** X18: with a seed that is not a key of the chain the first pull on
    the generator raises the [KeyError] of the seed, and no title is
    handed out. *)
Theorem titles_seed_missing (rounds fuel : nat) (mark : gmap string table)
    (seed : string) (n : nat) (g : G) :
  mark !! seed = None ->
  titles uniform (S rounds) fuel mark seed (S n) g
  = ([], Raised (KeyError seed)).
Proof.
  intros Hseed. unfold titles, markov_randwalk. simpl.
  unfold markov_randwalk. rewrite Hseed. reflexivity.
Qed.

End Pipeline.

(** X14: when the input starts with [None], so that no title is read,
    [calculate_chain] returns the chain with the empty table of [START]
    only, and every walk from [START] on it fails with the
    [AssertionError] of the sampler, whatever the draw. *)
Theorem empty_chain_walk_fails (titles : list (option string)) :
  titles <> [] ->
  read_titles titles = [] ->
  exists mark,
    calculate_chain titles = Ok mark
    /\ forall (G : Type) (uniform : Z -> Z -> G -> Q * G) (fuel : nat) (g : G),
         fst (markov_randwalk uniform (S fuel) mark START g)
         = Some (Raise AssertionError).
Proof.
  intros Hsome Hread. exists {[ START := [] ]}.
  split; [exact (calculate_chain_unread titles Hsome Hread)|].
  intros G uniform fuel g. unfold markov_randwalk.
  rewrite lookup_singleton_eq. simpl.
  rewrite (surjective_pairing (weighted_choice uniform [] g)).
  rewrite weighted_choice_fst. reflexivity.
Qed.

(** ** Cleaned titles *)

Lemma lower_char_badchar (c : ascii) :
  badchar (lower_char c) = true -> badchar c = true.
Proof. destruct c as [[] [] [] [] [] [] [] []]; vm_compute; congruence. Qed.

Lemma lower_char_idempotent (c : ascii) :
  lower_char (lower_char c) = lower_char c.
Proof. destruct c as [[] [] [] [] [] [] [] []]; vm_compute; reflexivity. Qed.

Lemma lower_char_not_capital (c : ascii) :
  (65 <= nat_of_ascii (lower_char c) <= 90)%nat -> False.
Proof. destruct c as [[] [] [] [] [] [] [] []]; vm_compute; lia. Qed.

Lemma occurs_lower_remove (c : ascii) (s : string) :
  badchar c = true -> occurs c (lower (remove_badchars s)) = false.
Proof.
  intros Hbad. induction s as [|c' rest IH]; simpl; [reflexivity|].
  destruct (badchar c') eqn:Hc'; [exact IH|].
  simpl. rewrite IH, orb_false_r.
  apply Ascii.eqb_neq. intros ->.
  apply lower_char_badchar in Hbad. congruence.
Qed.

Lemma lower_idempotent (s : string) : lower (lower s) = lower s.
Proof.
  induction s as [|c rest IH]; simpl; [reflexivity|].
  rewrite lower_char_idempotent, IH. reflexivity.
Qed.

Lemma occurs_lower_capital (c : ascii) (s : string) :
  (65 <= nat_of_ascii c <= 90)%nat -> occurs c (lower s) = false.
Proof.
  intros Hcap. induction s as [|c' rest IH]; simpl; [reflexivity|].
  rewrite IH, orb_false_r. apply Ascii.eqb_neq. intros ->.
  exact (lower_char_not_capital c' Hcap).
Qed.

Section CleaningFacts.
Variable title_group : string -> option string.

(** X19: a title that [cleanline] returns holds none of the characters
    it is meant to drop: no double quote, single quote, newline or
    parenthesis (lowering the case brings none back). *)
Theorem cleanline_no_badchars (line t : string) (c : ascii) :
  cleanline title_group line = Some t ->
  badchar c = true ->
  occurs c t = false.
Proof.
  unfold cleanline. destruct (title_group line) as [dirty|]; [|discriminate].
  intros [= <-] Hbad. apply occurs_lower_remove, Hbad.
Qed.

(** X20: a title that [cleanline] returns is in lower case: lowering it
    again changes nothing, and none of the letters A-Z occurs in it. *)
Theorem cleanline_lower_case (line t : string) :
  cleanline title_group line = Some t ->
  lower t = t
  /\ forall c, (65 <= nat_of_ascii c <= 90)%nat -> occurs c t = false.
Proof.
  unfold cleanline. destruct (title_group line) as [dirty|]; [|discriminate].
  intros [= <-]. split; [apply lower_idempotent|].
  intros c. apply occurs_lower_capital.
Qed.

End CleaningFacts.

Lemma cleanline_no_badchars_witness :
  occurs "("%char "jaws" = false.
Proof.
  apply (cleanline_no_badchars first_word "(JA'WS) (1975)" "jaws" "("%char);
    reflexivity.
Defined.

Lemma cleanline_lower_case_witness :
  lower "jaws" = "jaws"
  /\ forall c, (65 <= nat_of_ascii c <= 90)%nat -> occurs c "jaws" = false.
Proof.
  apply (cleanline_lower_case first_word "(JA'WS) (1975)" "jaws").
  reflexivity.
Defined.

(** ** From the set of cleaned names to the chain *)

Lemma read_titles_no_None (l : list (option string)) :
  None ∉ l -> map Some (read_titles l) = l.
Proof.
  induction l as [|[t|] rest IH]; intros Hnone; simpl.
  - reflexivity.
  - rewrite IH; [reflexivity|]. intros Hin. apply Hnone. right. exact Hin.
  - exfalso. apply Hnone. left.
Qed.

Lemma read_titles_perm (l1 l2 : list (option string)) :
  Permutation l1 l2 -> None ∉ l1 ->
  Permutation (read_titles l1) (read_titles l2).
Proof.
  induction 1 as [|x l l' Hperm IH|x y l|l l' l'' H1 IH1 H2 IH2];
    intros Hnone.
  - constructor.
  - apply not_elem_of_cons in Hnone as [Hx Hl].
    destruct x as [t|]; [|congruence]. simpl. constructor. exact (IH Hl).
  - apply not_elem_of_cons in Hnone as [Hy Hnone].
    apply not_elem_of_cons in Hnone as [Hx Hl].
    destruct x as [t|]; [|congruence]. destruct y as [u|]; [|congruence].
    simpl. apply perm_swap.
  - etransitivity; [exact (IH1 Hnone)|]. apply IH2.
    rewrite <- H1. exact Hnone.
Qed.

Section CleanInputFacts.
Variable title_group : string -> option string.

(** X21: when every name parses, the chain built from the set that
    [clean_input] returns does not depend on the order in which the set
    is gone through: two runs give chains with the same keys and the same
    edges with the same weights. *)
Theorem clean_input_order (names : list string) (l1 l2 : list (option string))
    (mark1 mark2 : gmap string table) :
  enumerates l1 (clean_input title_group names) ->
  enumerates l2 (clean_input title_group names) ->
  None ∉ clean_input title_group names ->
  calculate_chain l1 = Ok mark1 ->
  calculate_chain l2 = Ok mark2 ->
  forall s w,
    (is_Some (mark1 !! s) <-> is_Some (mark2 !! s))
    /\ edge mark1 s w = edge mark2 s w.
Proof.
  intros [Hnd1 Hin1] [Hnd2 Hin2] Hnone H1 H2 s w.
  assert (Hperm : Permutation l1 l2).
  { apply NoDup_Permutation; [exact Hnd1 | exact Hnd2|].
    intros x. rewrite Hin1, Hin2. reflexivity. }
  assert (Hn1 : None ∉ l1) by (rewrite Hin1; exact Hnone).
  assert (Hn2 : None ∉ l2) by (rewrite Hin2; exact Hnone).
  rewrite <- (read_titles_no_None l1 Hn1) in H1.
  rewrite <- (read_titles_no_None l2 Hn2) in H2.
  apply (calculate_chain_perm (read_titles l1) (read_titles l2));
    [|exact H1|exact H2].
  apply read_titles_perm; assumption.
Qed.

End CleanInputFacts.

(** ** Concrete runs of the further properties *)

Lemma godfather_chain_wf : chain_wf godfather_chain.
Proof.
  exact (calculate_chain_wf [Some "the godfather"] godfather_chain
           calculate_chain_godfather).
Qed.

Lemma godfather_chain_live : chain_live godfather_chain.
Proof.
  intros s tbl Hs.
  apply (calculate_chain_table_nonempty [Some "the godfather"] godfather_chain
           s tbl calculate_chain_godfather Hs).
  right. discriminate.
Qed.

Lemma markov_randwalk_path_witness :
  exists (tbl : table) (ws : list string),
    godfather_chain !! START = Some tbl
    /\ "the godfather" = join (title_start START ++ ws)
    /\ walk_path godfather_chain tbl ws.
Proof.
  apply (markov_randwalk_path uniform_top 3 godfather_chain START tt
           "the godfather").
  reflexivity.
Defined.

Lemma markov_randwalk_seed_first_witness :
  String.prefix "the" "the godfather" = true
  /\ exists ws, "the godfather" = join ("the" :: ws).
Proof.
  apply (markov_randwalk_seed_first uniform_top 2 godfather_chain "the" tt
           "the godfather").
  - discriminate.
  - reflexivity.
Defined.

Lemma markov_randwalk_safe_witness :
  fst (markov_randwalk uniform_top 2 godfather_chain START tt)
  <> Some (Raise AssertionError).
Proof.
  apply (markov_randwalk_safe uniform_top godfather_chain START 2 tt
           AssertionError).
  - exact godfather_chain_wf.
  - exact godfather_chain_live.
  - exact uniform_top_in_range.
  - eexists. reflexivity.
Defined.

Lemma edge_weights_are_counts_witness :
  edge godfather_chain "the" "godfather" = Some 1.
Proof.
  exact (edge_weights_are_counts [Some "the godfather"] godfather_chain
           "the" "godfather" calculate_chain_godfather).
Defined.

Lemma chain_keys_are_words_witness :
  is_Some (godfather_chain !! "godfather")
  <-> "godfather" = START
      \/ exists title, title ∈ read_titles [Some "the godfather"]
                       /\ "godfather" ∈ processed (split title).
Proof.
  exact (chain_keys_are_words [Some "the godfather"] godfather_chain
           "godfather" calculate_chain_godfather).
Defined.

Lemma chain_tables_nonempty_witness :
  (forall s tbl, godfather_chain !! s = Some tbl -> s <> START -> tbl <> [])
  /\ (read_titles [Some "the godfather"] <> [] -> chain_live godfather_chain)
  /\ (read_titles [Some "the godfather"] = [] ->
      godfather_chain = {[ START := [] ]}).
Proof.
  exact (chain_tables_nonempty [Some "the godfather"] godfather_chain
           calculate_chain_godfather).
Defined.

Lemma built_chain_walk_safe_witness :
  fst (markov_randwalk uniform_top 2 godfather_chain "the" tt)
  <> Some (Raise (KeyError "godfather")).
Proof.
  apply (built_chain_walk_safe uniform_top [Some "the godfather"]
           godfather_chain "the" 2 tt (KeyError "godfather")).
  - exact calculate_chain_godfather.
  - discriminate.
  - exact uniform_top_in_range.
  - eexists. reflexivity.
Defined.

Lemma titles_are_paths_witness :
  exists (tbl : table) (ws : list string),
    godfather_chain !! START = Some tbl
    /\ "the godfather" = join (title_start START ++ ws)
    /\ walk_path godfather_chain tbl ws.
Proof.
  apply (titles_are_paths uniform_top 4 4 godfather_chain START 1 tt
           "the godfather").
  apply (bool_decide_unpack _). vm_compute. exact I.
Defined.

Lemma built_chain_titles_safe_witness :
  snd (titles uniform_top 4 4 godfather_chain START 2 tt)
  <> Raised AssertionError.
Proof.
  apply (built_chain_titles_safe uniform_top [Some "the godfather"]
           godfather_chain START 4 4 2 tt AssertionError).
  - exact calculate_chain_godfather.
  - discriminate.
  - exact uniform_top_in_range.
  - eexists. reflexivity.
Defined.

Lemma titles_seed_alone_witness :
  fst (titles uniform_top 5 5 godfather_chain "godfather" 1 tt) = []
  /\ (1%nat <> O ->
      snd (titles uniform_top 5 5 godfather_chain "godfather" 1 tt) = NoFuel).
Proof.
  apply (titles_seed_alone uniform_top 5 5 godfather_chain "godfather" 1 1 tt).
  - reflexivity.
  - discriminate.
  - lia.
  - exact uniform_top_in_range.
Defined.

Lemma titles_seed_missing_witness :
  titles uniform_top 1 3 godfather_chain "nope" 1 tt
  = ([], Raised (KeyError "nope")).
Proof.
  apply (titles_seed_missing uniform_top 0 3 godfather_chain "nope" 0 tt).
  reflexivity.
Defined.

Lemma empty_chain_walk_fails_witness :
  exists mark,
    calculate_chain [None; Some "a"] = Ok mark
    /\ forall (G : Type) (uniform : Z -> Z -> G -> Q * G) (fuel : nat) (g : G),
         fst (markov_randwalk uniform (S fuel) mark START g)
         = Some (Raise AssertionError).
Proof.
  apply (empty_chain_walk_fails [None; Some "a"]);
    [discriminate | reflexivity].
Defined.

Lemma clean_input_order_witness :
  let mark1 : gmap string table :=
    <["b" := [(END, 1)]]> (<["a" := [(END, 1)]]>
      {[ START := [("a", 1); ("b", 1)] ]}) in
  let mark2 : gmap string table :=
    <["a" := [(END, 1)]]> (<["b" := [(END, 1)]]>
      {[ START := [("b", 1); ("a", 1)] ]}) in
  (is_Some (mark1 !! START) <-> is_Some (mark2 !! START))
  /\ edge mark1 START "b" = edge mark2 START "b".
Proof.
  intros mark1 mark2.
  assert (Hset : clean_input first_word ["A (1999)"; "B (2001)"; "A (1999)"]
                 = list_to_set [Some "a"; Some "b"]).
  { unfold clean_input.
    change (cleanline first_word <$> ["A (1999)"; "B (2001)"; "A (1999)"])
      with [Some "a"; Some "b"; Some "a"].
    set_solver. }
  apply (clean_input_order first_word ["A (1999)"; "B (2001)"; "A (1999)"]
           [Some "a"; Some "b"] [Some "b"; Some "a"] mark1 mark2).
  - split; [apply (bool_decide_unpack _); vm_compute; exact I|].
    intros x. rewrite Hset, elem_of_list_to_set. reflexivity.
  - split; [apply (bool_decide_unpack _); vm_compute; exact I|].
    intros x. rewrite Hset, elem_of_list_to_set, !elem_of_cons, elem_of_nil.
    tauto.
  - rewrite Hset, elem_of_list_to_set.
    apply (bool_decide_unpack _). vm_compute. exact I.
  - vm_compute. reflexivity.
  - vm_compute. reflexivity.
Defined.

(** ** Generated titles read back *)

Lemma split_tokens_no_space (s : string) :
  Forall (fun w => no_space w = true) (split s).
Proof.
  induction s as [|c rest IH]; simpl.
  - repeat constructor.
  - destruct (Ascii.eqb c " ") eqn:Hc.
    + constructor; [reflexivity | exact IH].
    + destruct (split rest) as [|w ws].
      * repeat constructor. simpl. rewrite Hc. reflexivity.
      * apply Forall_cons in IH as [Hw Hws].
        constructor; [|exact Hws]. simpl. rewrite Hc, Hw. reflexivity.
Qed.

Lemma elem_of_processed (w : string) (words : list string) :
  w ∈ processed words -> w ∈ words /\ w <> EmptyString.
Proof.
  induction words as [|word rest IH]; simpl.
  - intros H. apply elem_of_nil in H. contradiction.
  - destruct (String.eqb_spec word EmptyString) as [->|Hne].
    + intros H. apply elem_of_nil in H. contradiction.
    + intros H. apply elem_of_cons in H as [->|H].
      * split; [left | exact Hne].
      * destruct (IH H). split; [right|]; assumption.
Qed.

Lemma processed_id (words : list string) :
  Forall (fun w => w <> EmptyString) words -> processed words = words.
Proof.
  induction 1 as [|w rest Hw _ IH]; simpl; [reflexivity|].
  apply String.eqb_neq in Hw. rewrite Hw, IH. reflexivity.
Qed.

Lemma walk_path_keys (mark : gmap string table) (tbl : table)
    (ws : list string) :
  walk_path mark tbl ws -> Forall (fun w => is_Some (mark !! w)) ws.
Proof.
  revert tbl. induction ws as [|w rest IH]; intros tbl; simpl.
  - constructor.
  - intros (_ & _ & tbl' & Hw & Hpath).
    constructor; [rewrite Hw; eauto | exact (IH tbl' Hpath)].
Qed.

(** The keys of a built chain are words: not empty, without a space. *)
Lemma calculate_chain_key_word (titles : list (option string))
    (mark : gmap string table) (s : string) :
  calculate_chain titles = Ok mark ->
  is_Some (mark !! s) ->
  s <> EmptyString /\ no_space s = true.
Proof.
  intros Hbuild Hk.
  apply (calculate_chain_keys titles mark s Hbuild) in Hk
    as [->|(title & _ & Hin)].
  - split; [discriminate | reflexivity].
  - apply elem_of_processed in Hin as [Hin Hne]. split; [exact Hne|].
    pose proof (split_tokens_no_space title) as Hall.
    rewrite Forall_forall in Hall. exact (Hall s Hin).
Qed.

Section RoundTrip.
Context {G : Type}.
Variable uniform : Z -> Z -> G -> Q * G.

(** X22: a title that a walk from [START] returns on a chain built by
    [calculate_chain] reads back as the walk: the tokens that
    [calculate_chain] would get to in it are exactly the words of the path
    walked. *)
Theorem generated_title_round_trip (titles : list (option string))
    (mark : gmap string table) (fuel : nat) (g : G) (s : string) :
  calculate_chain titles = Ok mark ->
  fst (markov_randwalk uniform fuel mark START g) = Some (Ok s) ->
  exists (tbl : table) (ws : list string),
    mark !! START = Some tbl
    /\ walk_path mark tbl ws
    /\ processed (split s) = ws.
Proof.
  intros Hbuild Hwalk. unfold markov_randwalk in Hwalk.
  destruct (mark !! START) as [tbl|] eqn:Hstart; [|discriminate].
  replace (String.eqb START START) with true in Hwalk by reflexivity.
  apply randwalk_loop_path in Hwalk as (ws & -> & Hpath).
  exists tbl, ws. split; [reflexivity|]. split; [exact Hpath|].
  simpl.
  pose proof (walk_path_keys mark tbl ws Hpath) as Hkeys.
  assert (Hwords : Forall (fun w => w <> EmptyString /\ no_space w = true) ws).
  { eapply Forall_impl; [exact Hkeys|]. intros w Hw.
    exact (calculate_chain_key_word titles mark w Hbuild Hw). }
  destruct ws as [|w rest]; [reflexivity|].
  rewrite split_join.
  - apply processed_id. eapply Forall_impl; [exact Hwords|]. intros ? []; auto.
  - discriminate.
  - eapply Forall_impl; [exact Hwords|]. intros ? []; auto.
Qed.

End RoundTrip.

Lemma generated_title_round_trip_witness :
  exists (tbl : table) (ws : list string),
    godfather_chain !! START = Some tbl
    /\ walk_path godfather_chain tbl ws
    /\ processed (split "the godfather") = ws.
Proof.
  apply (generated_title_round_trip uniform_top [Some "the godfather"]
           godfather_chain 3 tt "the godfather").
  - exact calculate_chain_godfather.
  - reflexivity.
Defined.
